(** * zkInterface: the libsnark integration helpers

    A shallow embedding of [cpp/libsnark_integration.cpp]: the
    little-endian element codec ([from_le], [into_le]), the bulk codec
    ([elements_into_le], [le_into_elements], [deserialize_elements]), the
    translation of protoboard indices to variable ids
    ([convert_variable_id]), and the four helpers that report or fill a
    protoboard.

    Conventions of the embedding.
    - [uint64_t], [size_t] and [mp_limb_t] values are integers in [Z]; the
      wrap-around of the C++ arithmetic is written out with [uint64].
      Bytes are integers too, [uint8] is the narrowing cast.
    - A pointer into a buffer is the buffer together with an offset (for
      writes) or the buffer with its prefix dropped (for reads).
    - A C++ [assert] that fails, an integer division by zero and an access
      past the end of an array stop the function: they are the three
      [fault]s of the [outcome] monad.
    - Loop counters are natural numbers: the vectors of the model are
      shorter than 2^31 entries, as FlatBuffers vectors are.
    - [r_limbs], [fieldt_size] and the field come from
      [libsnark_integration.hpp] and libff; they are the parameters of
      the section. *)

From Stdlib Require Import ZArith Lia.
From stdpp Require Import base list.

Local Open Scope Z_scope.

(** ** Faults and the outcome monad *)

Inductive fault : Set :=
| AssertionFailed
| DivisionByZero
| OutOfBounds.

Inductive outcome (A : Type) : Type :=
| Ok (a : A)
| Abort (f : fault).

Arguments Ok {A} a.
Arguments Abort {A} f.

#[global] Instance outcome_ret : MRet outcome := fun A a => Ok a.

#[global] Instance outcome_bind : MBind outcome := fun A B k m =>
  match m with
  | Ok a => k a
  | Abort f => Abort f
  end.

(** [for (i = lo; i < lo + n; i++) s = body i s]. *)
Fixpoint for_loop {St : Type} (lo n : nat) (body : nat -> St -> outcome St)
    (s : St) : outcome St :=
  match n with
  | O => Ok s
  | S n' => s' ← body lo s; for_loop (S lo) n' body s'
  end.

(** [v[i]] as an rvalue. *)
Definition read {A : Type} (v : list A) (i : nat) : outcome A :=
  match v !! i with
  | Some x => Ok x
  | None => Abort OutOfBounds
  end.

(** [v[i] = x]. *)
Definition write {A : Type} (v : list A) (i : nat) (x : A) : outcome (list A) :=
  if (i <? length v)%nat then Ok (<[i := x]> v) else Abort OutOfBounds.

(** ** Machine integers *)

Definition uint64 (z : Z) : Z := z mod 2 ^ 64.
Definition uint8 (z : Z) : Z := z mod 2 ^ 8.

(** [sizeof(mp_limb_t)] on the 64-bit targets of libff. *)
Definition bytes_per_limb : nat := 8.

(** [bigint<r_limbs>]: the array [data] of limbs, least significant first. *)
Abbreviation bigint := (list Z) (only parsing).

(** An element of libff's prime field [FieldT]: its canonical
    representative. *)
Abbreviation FieldT := Z (only parsing).

(** ** FlatBuffers messages, as the helpers read them *)

(** The table [Variables]: ids and the packed bytes of their elements. *)
Record Variables : Type := mkVariables {
  variable_ids : list Z;
  values : list Z
}.

Record BilinearConstraint : Type := mkBilinearConstraint {
  linear_combination_a : Variables;
  linear_combination_b : Variables;
  linear_combination_c : Variables
}.

Record Circuit : Type := mkCircuit {
  connections : Variables;
  free_variable_id : Z
}.

(** ** libsnark

    A linear combination is its vector of terms, [add_term] appends one.
    A protoboard holds the constant term, the values of the variables
    1, 2, ... and the constraints. *)

Record linear_term : Type := mkTerm {
  index : Z;
  coeff : FieldT
}.

Abbreviation linear_combination := (list linear_term) (only parsing).

Definition add_term (lc : linear_combination) (var : Z) (field_coeff : FieldT)
    : linear_combination :=
  lc ++ [mkTerm var field_coeff].

Record r1cs_constraint : Type := mkConstraint {
  a : linear_combination;
  b : linear_combination;
  c : linear_combination
}.

Record protoboard : Type := mkProtoboard {
  constant_term : FieldT;
  pb_values : list FieldT;
  constraints : list r1cs_constraint
}.

Definition num_variables (pb : protoboard) : nat := length (pb_values pb).

(** [pb.val(var)] read: the assertion of libsnark, then the constant term
    for index 0 and [values[index - 1]] otherwise. *)
Definition val (pb : protoboard) (var : Z) : outcome FieldT :=
  if var <=? Z.of_nat (length (pb_values pb)) then
    if var =? 0 then Ok (constant_term pb)
    else read (pb_values pb) (Z.to_nat (var - 1))
  else Abort AssertionFailed.

(** [pb.val(var) = x]. *)
Definition set_val (pb : protoboard) (var : Z) (x : FieldT) : outcome protoboard :=
  if var <=? Z.of_nat (length (pb_values pb)) then
    if var =? 0 then Ok (mkProtoboard x (pb_values pb) (constraints pb))
    else
      values' ← write (pb_values pb) (Z.to_nat (var - 1)) x;
      Ok (mkProtoboard (constant_term pb) values' (constraints pb))
  else Abort AssertionFailed.

(** The dense table of all values: the constant one, then the variables. *)
Definition full_assignment (pb : protoboard) : list FieldT :=
  constant_term pb :: pb_values pb.

(** ** The field of alt_bn128

    [libsnark_integration.hpp] instantiates the helpers at the scalar field
    of alt_bn128: four limbs, 32 bytes per element. *)

Definition bn128_r : Z :=
  21888242871839275222246405745257275088548364400416034343698204186575808495617.

Definition bn128_limbs : nat := 4.
Definition bn128_size : nat := 32.

(** One element of 32 bytes whose first byte is [x]. *)
Definition element_bytes (x : Z) : list Z := x :: replicate 31 0.

(** A circuit with the connections 5 and 9 and the first free id 100. *)
Definition circuit_5_9 : Circuit := mkCircuit (mkVariables [5; 9] []) 100.

(** A protoboard with two connections, one output and one local variable
    of value 42. *)
Definition pb_local_42 : protoboard := mkProtoboard 1 [11; 12; 13; 42] [].

(** A protoboard with the constraint (3 x1) (7 x2) = 5 x4, twice. *)
Definition pb_two_constraints : protoboard :=
  mkProtoboard 1 [11; 12; 13; 42]
    [mkConstraint [mkTerm 1 3] [mkTerm 2 7] [mkTerm 4 5];
     mkConstraint [mkTerm 1 3] [mkTerm 2 7] [mkTerm 4 5]].

(** A protoboard with one hundred variables, all zero. *)
Definition pb_hundred : protoboard := mkProtoboard 1 (replicate 100 0) [].

(** The circuit above with the incoming values 7 and 9. *)
Definition circuit_incoming : Circuit :=
  mkCircuit (mkVariables [5; 9] (element_bytes 7 ++ element_bytes 9)) 100.

(** A circuit with the dense numbering: connections 1 and 2, free id 3. *)
Definition circuit_dense : Circuit := mkCircuit (mkVariables [1; 2] []) 3.

(** A protoboard with the constraint (3 x1) (7 x2) = 0, the right side a
    linear combination without terms. *)
Definition pb_empty_lincomb : protoboard :=
  mkProtoboard 1 [11; 12; 13; 42] [mkConstraint [mkTerm 1 3] [mkTerm 2 7] []].

Section Codec.

(** The number of limbs of a field element. *)
Variable r_limbs : nat.
(** The number of bytes of an encoded field element. *)
Variable fieldt_size : nat.
(** The order of the field [FieldT]. *)
Variable modulus : Z.

(** *** libff

    The constructor of [FieldT] from a [bigint] reduces modulo the field
    order and [as_bigint] gives the limbs of the representative. *)

Definition bigint_value (num : bigint) : Z :=
  foldr (fun d acc => d + 2 ^ 64 * acc) 0 num.

Definition FieldT_of_bigint (num : bigint) : FieldT :=
  bigint_value num mod modulus.

Definition as_bigint (e : FieldT) : bigint :=
  (fun limb : nat => uint64 (Z.shiftr e (64 * Z.of_nat limb))) <$> seq 0 r_limbs.

(** The default-constructed [bigint]: all limbs zero. *)
Definition bigint_zero : bigint := replicate r_limbs 0.

(** *** Element conversion helpers *)

(** Bytes to Bigint. Little-Endian. *)
Definition from_le (bytes : list Z) (size : nat) : outcome bigint :=
  let num := bigint_zero in
  if (size <=? bytes_per_limb * r_limbs)%nat then
    for_loop 0 size (fun byte num =>
      let limb := (byte / bytes_per_limb)%nat in
      let limb_byte := (byte mod bytes_per_limb)%nat in
      b ← read bytes byte;
      d ← read num limb;
      Ok (<[limb := Z.lor d (uint64 (Z.shiftl b (Z.of_nat limb_byte * 8)))]> num))
      num
  else Abort AssertionFailed.

(** Bigint to Bytes. Little-endian. The bytes are written into [out]
    from offset [off] on. *)
Definition into_le (num : bigint) (out : list Z) (off size : nat)
    : outcome (list Z) :=
  if (bytes_per_limb * r_limbs <=? size)%nat then
    for_loop 0 size (fun byte out =>
      let limb := (byte / bytes_per_limb)%nat in
      let limb_byte := (byte mod bytes_per_limb)%nat in
      d ← read num limb;
      write out (off + byte) (uint8 (Z.shiftr d (Z.of_nat limb_byte * 8))))
      out
  else Abort AssertionFailed.

(** Elements to bytes. *)
Definition elements_into_le (from_elements : list FieldT) : outcome (list Z) :=
  let to_bytes := replicate (fieldt_size * length from_elements) 0 in
  for_loop 0 (length from_elements) (fun i to_bytes =>
    e ← read from_elements i;
    into_le (as_bigint e) to_bytes (fieldt_size * i) fieldt_size)
    to_bytes.

(** Bytes to elements. *)
Definition le_into_elements (from_bytes : list Z) (num_elements element_size : nat)
    : outcome (list FieldT) :=
  let to_elements := replicate num_elements 0 in
  for_loop 0 num_elements (fun i to_elements =>
    num ← from_le (drop (element_size * i) from_bytes) element_size;
    write to_elements i (FieldT_of_bigint num))
    to_elements.

(** FlatBuffers bytes into elements. *)
Definition deserialize_elements (from_bytes : list Z) (num_elements : nat)
    : outcome (list FieldT) :=
  if (num_elements =? 0)%nat then Abort DivisionByZero
  else
    let element_size := (length from_bytes / num_elements)%nat in
    le_into_elements from_bytes num_elements element_size.

(** Extract the incoming elements from a Circuit. *)
Definition deserialize_incoming_elements (circuit : Circuit) : outcome (list FieldT) :=
  let num_elements := length (variable_ids (connections circuit)) in
  let in_elements_bytes := values (connections circuit) in
  deserialize_elements in_elements_bytes num_elements.

(** Serialize outgoing elements into a message builder: the vector of bytes
    that the builder is given. *)
Definition serialize_elements (from_elements : list FieldT) : outcome (list Z) :=
  elements_into_le from_elements.

(** *** Helpers to report the content of a protoboard *)

(** Convert protoboard index to standard variable ID. [Get] is only
    reached in range, its default is never returned. *)
Definition convert_variable_id (circuit : Circuit) (index : Z) : Z :=
  (* Constant one? *)
  if index =? 0 then 0
  else
    let index := uint64 (index - 1) in
    (* An input? *)
    let in_ids := variable_ids (connections circuit) in
    if index <? Z.of_nat (length in_ids) then
      default 0 (in_ids !! Z.to_nat index)
    else
      let index := uint64 (index - Z.of_nat (length in_ids)) in
      (* A local variable. *)
      let free_id := free_variable_id circuit in
      uint64 (free_id + index).

(** The closure [make_lc]: one row of a matrix. *)
Definition make_lc (circuit : Circuit) (terms : linear_combination)
    : outcome Variables :=
  let variable_ids := replicate (length terms) 0 in
  let coeffs := replicate (fieldt_size * length terms) 0 in
  '(variable_ids, coeffs) ←
    for_loop 0 (length terms) (fun i '(variable_ids, coeffs) =>
      t ← read terms i;
      variable_ids ← write variable_ids i (convert_variable_id circuit (index t));
      coeffs ← into_le (as_bigint (coeff t)) coeffs (fieldt_size * i) fieldt_size;
      Ok (variable_ids, coeffs))
      (variable_ids, coeffs);
  Ok (mkVariables variable_ids coeffs).

(** The loop over the constraints, [push_back] on [fb_constraints]. *)
Fixpoint serialize_constraints_loop (circuit : Circuit)
    (lib_constraints : list r1cs_constraint)
    (fb_constraints : list BilinearConstraint)
    : outcome (list BilinearConstraint) :=
  match lib_constraints with
  | [] => Ok fb_constraints
  | lib_constraint :: rest =>
      lc_a ← make_lc circuit (a lib_constraint);
      lc_b ← make_lc circuit (b lib_constraint);
      lc_c ← make_lc circuit (c lib_constraint);
      serialize_constraints_loop circuit rest
        (fb_constraints ++ [mkBilinearConstraint lc_a lc_b lc_c])
  end.

(** The result is the vector of constraints of the [ConstraintSystem]
    message; the framing of the builder is not modelled. *)
Definition serialize_protoboard_constraints (circuit : Circuit) (pb : protoboard)
    : outcome (list BilinearConstraint) :=
  serialize_constraints_loop circuit (constraints pb) [].

(** The result is the [Variables] table of the [Witness] message.
    Allocation of the two vectors is taken to succeed. *)
Definition serialize_protoboard_local_assignment (circuit : Circuit)
    (num_outputs : Z) (pb : protoboard) : outcome Variables :=
  let all_vars := Z.of_nat (num_variables pb) in
  let shared_vars :=
    uint64 (Z.of_nat (length (variable_ids (connections circuit))) + num_outputs) in
  let local_vars := Z.to_nat (uint64 (all_vars - shared_vars)) in
  let variable_ids := replicate local_vars 0 in
  let elements := replicate (fieldt_size * local_vars) 0 in
  let free_id := free_variable_id circuit in
  '(variable_ids, elements) ←
    for_loop 0 local_vars (fun index '(variable_ids, elements) =>
      variable_ids ← write variable_ids index (uint64 (free_id + Z.of_nat index));
      x ← val pb (uint64 (1 + shared_vars + Z.of_nat index));
      elements ← into_le (as_bigint x) elements (fieldt_size * index) fieldt_size;
      Ok (variable_ids, elements))
      (variable_ids, elements);
  Ok (mkVariables variable_ids elements).

(** *** Helpers to write into a protoboard *)

Definition deserialize_lincomb (terms : Variables) : outcome linear_combination :=
  let variable_ids := variable_ids terms in
  let num_terms := length variable_ids in
  elements ← deserialize_elements (values terms) num_terms;
  for_loop 0 num_terms (fun i lc =>
    id ← read variable_ids i;
    e ← read elements i;
    Ok (add_term lc id e))
    [].

Definition deserialize_constraint (constraint : BilinearConstraint)
    : outcome r1cs_constraint :=
  lc_a ← deserialize_lincomb (linear_combination_a constraint);
  lc_b ← deserialize_lincomb (linear_combination_b constraint);
  lc_c ← deserialize_lincomb (linear_combination_c constraint);
  Ok (mkConstraint lc_a lc_b lc_c).

(** The body of the loop of [copy_variables_into_protoboard]. *)
Definition copy_variable (variable_ids : list Z) (elements : list FieldT)
    (i : nat) (pb : protoboard) : outcome protoboard :=
  id ← read variable_ids i;
  if id =? 0 then Ok pb
  else
    e ← read elements i;
    set_val pb id e.

(** Write variable assignments into a protoboard. *)
Definition copy_variables_into_protoboard (pb : protoboard) (variables : Variables)
    : outcome protoboard :=
  let variable_ids := variable_ids variables in
  let num_variables := length variable_ids in
  elements ← deserialize_elements (values variables) num_variables;
  for_loop 0 num_variables (copy_variable variable_ids elements) pb.

(** *** The element codec, as the helpers compose it *)

(** [FieldT(from_le(bytes, width))], the body of the loop of
    [le_into_elements]. *)
Definition decode_le (bytes : list Z) (width : nat) : outcome FieldT :=
  num ← from_le bytes width;
  Ok (FieldT_of_bigint num).

(** [into_le(element.as_bigint(), out, width)] on a fresh buffer, the body
    of the loop of [elements_into_le]. *)
Definition encode_le (element : FieldT) (width : nat) : outcome (list Z) :=
  into_le (as_bigint element) (replicate width 0) 0 width.

(** *** Specification functions *)

(** A [bigint<r_limbs>] in memory: [r_limbs] limbs of 64 bits. *)
Definition wf_bigint (num : bigint) : Prop :=
  length num = r_limbs /\ Forall (fun d => 0 <= d < 2 ^ 64) num.

(** The byte at position [byte] of the little-endian image of [num]. *)
Definition bigint_byte (num : bigint) (byte : nat) : Z :=
  uint8 (Z.shiftr (default 0 (num !! (byte / bytes_per_limb)%nat))
                  (Z.of_nat (byte mod bytes_per_limb) * 8)).

Definition bigint_bytes (num : bigint) (size : nat) : list Z :=
  bigint_byte num <$> seq 0 size.

(** The limbs of [num] when only its first [k] bytes are kept. *)
Definition low_bytes (num : bigint) (k : nat) : bigint :=
  imap (fun limb d =>
          d mod 2 ^ (8 * Z.of_nat (Nat.min bytes_per_limb (k - bytes_per_limb * limb))))
       num.

(** A byte of a buffer, and the number that a run of bytes denotes, least
    significant byte first. *)
Definition is_byte (b : Z) : Prop := 0 <= b < 2 ^ 8.

Definition le_value (bytes : list Z) : Z :=
  foldr (fun b acc => b + 2 ^ 8 * acc) 0 bytes.

(** The chunk of [element_size] bytes of element [i]. *)
Definition chunk (from_bytes : list Z) (element_size i : nat) : list Z :=
  take element_size (drop (element_size * i) from_bytes).

(** A [Variables] table that [deserialize_elements] decodes: at least
    one id, and elements no wider than the limbs. *)
Definition decodable (variables : Variables) : Prop :=
  (0 < length (variable_ids variables))%nat
  /\ (length (values variables) / length (variable_ids variables)
      <= bytes_per_limb * r_limbs)%nat.

(** The effect of one pair of an assignment on the values of the
    variables 1, 2, ...: id 0 is skipped, any other id is the index. *)
Definition assign (vs : list FieldT) (p : Z * FieldT) : list FieldT :=
  if p.1 =? 0 then vs else <[Z.to_nat (p.1 - 1) := p.2]> vs.

(** The row that [make_lc] builds. *)
Definition export_lc (circuit : Circuit) (terms : linear_combination) : Variables :=
  mkVariables
    ((fun t => convert_variable_id circuit (index t)) <$> terms)
    (concat ((fun t => bigint_bytes (as_bigint (coeff t)) fieldt_size) <$> terms)).

Definition export_constraint (circuit : Circuit) (constraint : r1cs_constraint)
    : BilinearConstraint :=
  mkBilinearConstraint
    (export_lc circuit (a constraint))
    (export_lc circuit (b constraint))
    (export_lc circuit (c constraint)).

(** A canonical representative of the field. *)
Definition canonical (e : FieldT) : Prop := 0 <= e < modulus.

(** A linear combination that has terms, with canonical coefficients. *)
Definition proper_lc (terms : linear_combination) : Prop :=
  terms <> [] /\ Forall (fun t => canonical (coeff t)) terms.

(** A term as the export names it: the index converted, the coefficient
    kept. *)
Definition convert_term (circuit : Circuit) (t : linear_term) : linear_term :=
  mkTerm (convert_variable_id circuit (index t)) (coeff t).

(** From the spec (4.3): the translation of a wire id to an internal
    index. The source has no such function. *)
Definition spec_to_internal (wire_id : Z) (connection_ids : list Z) (free_id : Z)
    : Z :=
  if wire_id =? 0 then 0
  else
    let i := wire_id - 1 in
    if i <? Z.of_nat (length connection_ids) then 1 + i
    else free_id + (i - Z.of_nat (length connection_ids)).

(** From the spec (4.4): the import of a linear combination, each wire id
    translated with [spec_to_internal]. *)
Definition spec_import_lincomb (connection_ids : list Z) (free_id : Z)
    (terms : Variables) : outcome linear_combination :=
  elements ← deserialize_elements (values terms) (length (variable_ids terms));
  Ok (zip_with
        (fun id e => mkTerm (spec_to_internal id connection_ids free_id) e)
        (variable_ids terms) elements).

(** From the spec (4.5): the import of an assignment, each wire id
    translated with [spec_to_internal], index 0 skipped. *)
Fixpoint spec_import_pairs (connection_ids : list Z) (free_id : Z)
    (pb : protoboard) (pairs : list (Z * FieldT)) : outcome protoboard :=
  match pairs with
  | [] => Ok pb
  | (wire_id, value) :: rest =>
      let id := spec_to_internal wire_id connection_ids free_id in
      if id =? 0 then spec_import_pairs connection_ids free_id pb rest
      else
        pb' ← set_val pb id value;
        spec_import_pairs connection_ids free_id pb' rest
  end.

Definition spec_import_assignment (connection_ids : list Z) (free_id : Z)
    (pb : protoboard) (variables : Variables) : outcome protoboard :=
  elements ← deserialize_elements (values variables)
               (length (variable_ids variables));
  spec_import_pairs connection_ids free_id pb
    (zip (variable_ids variables) elements).

(** ** Loops *)

Lemma bind_Ok {A B : Type} (m : outcome A) (k : A -> outcome B) (x : A) :
  m = Ok x -> (m ≫= k) = k x.
Proof. intros ->. reflexivity. Qed.

Lemma bind_inv_Ok {A B : Type} (m : outcome A) (k : A -> outcome B) (y : B) :
  (m ≫= k) = Ok y -> exists x, m = Ok x /\ k x = Ok y.
Proof. destruct m as [x|f]; [eauto | discriminate]. Qed.

Lemma read_Ok {A : Type} (v : list A) (i : nat) (x : A) :
  v !! i = Some x -> read v i = Ok x.
Proof. unfold read. intros ->. reflexivity. Qed.

Lemma write_Ok {A : Type} (v : list A) (i : nat) (x : A) :
  (i < length v)%nat -> write v i x = Ok (<[i := x]> v).
Proof.
  intros Hi. unfold write.
  destruct (Nat.ltb_spec i (length v)); [reflexivity | lia].
Qed.

(** A loop whose body keeps an invariant runs to its end and
    establishes the invariant there. *)
Lemma for_loop_inv {St : Type} (Inv : nat -> St -> Prop)
    (body : nat -> St -> outcome St) (n lo : nat) (s : St) :
  Inv lo s ->
  (forall i s, (lo <= i < lo + n)%nat -> Inv i s ->
               exists s', body i s = Ok s' /\ Inv (S i) s') ->
  exists s', for_loop lo n body s = Ok s' /\ Inv (lo + n)%nat s'.
Proof.
  revert lo s. induction n as [|n IH]; intros lo s Hs Hbody.
  - exists s. rewrite Nat.add_0_r. split; [reflexivity | assumption].
  - destruct (Hbody lo s ltac:(lia) Hs) as (s1 & Hb & H1).
    destruct (IH (S lo) s1 H1) as (s2 & Hl & H2).
    { intros i s' Hi. apply Hbody. lia. }
    exists s2. cbn [for_loop]. rewrite (bind_Ok _ _ _ Hb).
    split; [assumption |]. replace (lo + S n)%nat with (S lo + n)%nat by lia.
    assumption.
Qed.

(** What every iteration keeps holds after a loop that returns. *)
Lemma for_loop_preserves {St : Type} (P : St -> Prop)
    (body : nat -> St -> outcome St) (n lo : nat) (s s' : St) :
  (forall i s s', body i s = Ok s' -> P s -> P s') ->
  P s ->
  for_loop lo n body s = Ok s' ->
  P s'.
Proof.
  intros Hbody. revert lo s. induction n as [|n IH]; intros lo s Hs Hloop.
  - injection Hloop as <-. exact Hs.
  - cbn [for_loop] in Hloop. apply bind_inv_Ok in Hloop as (s1 & Hb & Hloop).
    apply (IH (S lo) s1); [| exact Hloop]. apply (Hbody lo s); assumption.
Qed.

(** ** [into_le] *)

Lemma length_bigint_bytes (num : bigint) (size : nat) :
  length (bigint_bytes num size) = size.
Proof. unfold bigint_bytes. rewrite length_fmap, length_seq. reflexivity. Qed.

Lemma bigint_bytes_S (num : bigint) (k : nat) :
  bigint_bytes num (S k) = bigint_bytes num k ++ [bigint_byte num k].
Proof. unfold bigint_bytes. rewrite seq_S, fmap_app. reflexivity. Qed.

Lemma lookup_bigint_bytes (num : bigint) (size k : nat) :
  (k < size)%nat -> bigint_bytes num size !! k = Some (bigint_byte num k).
Proof.
  intros Hk. unfold bigint_bytes.
  rewrite list_lookup_fmap, lookup_seq_lt by assumption. reflexivity.
Qed.

(** Overwriting the cell after a window of [k] cells at [off] extends
    the window by one cell. *)
Lemma insert_window {A : Type} (out mid : list A) (off k : nat) (x : A) :
  length mid = k ->
  (off + k < length out)%nat ->
  <[(off + k)%nat := x]> (take off out ++ mid ++ drop (off + k) out)
  = take off out ++ (mid ++ [x]) ++ drop (off + S k) out.
Proof.
  intros Hmid Hlt.
  destruct (lookup_lt_is_Some_2 out (off + k)%nat Hlt) as [y Hy].
  rewrite (drop_S _ _ _ Hy).
  rewrite insert_app_r_alt by (rewrite length_take; lia).
  rewrite length_take, Nat.min_l by lia.
  rewrite insert_app_r_alt by lia.
  replace (off + k - off - length mid)%nat with 0%nat by lia.
  cbn [insert list_insert]. rewrite <- app_assoc.
  replace (off + S k)%nat with (S (off + k)) by lia. reflexivity.
Qed.

Lemma length_window {A : Type} (out mid : list A) (off k : nat) :
  length mid = k ->
  (off + k <= length out)%nat ->
  length (take off out ++ mid ++ drop (off + k) out) = length out.
Proof.
  intros Hmid Hle. rewrite !length_app, length_take, length_drop. lia.
Qed.

(** [into_le] at the width of the limbs overwrites [size] bytes at [off]
    with the little-endian image of [num] and leaves the rest of [out]. *)
Lemma into_le_window (num : bigint) (out : list Z) (off size : nat) :
  length num = r_limbs ->
  size = (bytes_per_limb * r_limbs)%nat ->
  (off + size <= length out)%nat ->
  into_le num out off size
  = Ok (take off out ++ bigint_bytes num size ++ drop (off + size) out).
Proof.
  intros Hnum Hsize Hout. unfold into_le.
  destruct (Nat.leb_spec (bytes_per_limb * r_limbs) size) as [_|]; [| lia].
  destruct (for_loop_inv
    (fun k o => o = take off out ++ bigint_bytes num k ++ drop (off + k) out)
    (fun byte out0 =>
       d ← read num (byte / bytes_per_limb)%nat;
       write out0 (off + byte)
         (uint8 (Z.shiftr d (Z.of_nat (byte mod bytes_per_limb) * 8))))
    size 0 out) as (o & Hloop & Ho).
  - rewrite Nat.add_0_r. cbn [bigint_bytes seq fmap list_fmap app].
    symmetry. apply take_drop.
  - intros k o Hk ->.
    assert (Hlimb : (k / bytes_per_limb < length num)%nat).
    { rewrite Hnum. apply Nat.Div0.div_lt_upper_bound. lia. }
    destruct (lookup_lt_is_Some_2 num _ Hlimb) as [d Hd].
    eexists. split.
    + rewrite (bind_Ok _ _ _ (read_Ok _ _ _ Hd)).
      apply write_Ok.
      rewrite length_window by (rewrite ?length_bigint_bytes; lia). lia.
    + rewrite insert_window by (rewrite ?length_bigint_bytes; lia).
      rewrite bigint_bytes_S. unfold bigint_byte. rewrite Hd.
      reflexivity.
  - rewrite Hloop, Ho. reflexivity.
Qed.

(** ** [from_le] after [into_le] *)

(** Adding byte [j] of a limb to its [j] low bytes gives its [j + 1] low
    bytes. *)
Lemma lor_next_byte (d j : Z) :
  0 <= j < 8 ->
  Z.lor (d mod 2 ^ (8 * j)) (uint64 (Z.shiftl (uint8 (Z.shiftr d (j * 8))) (j * 8)))
  = d mod 2 ^ (8 * (j + 1)).
Proof.
  intros Hj. unfold uint64, uint8. apply Z.bits_inj'. intros n Hn.
  rewrite Z.lor_spec, !Z.testbit_mod_pow2 by lia.
  rewrite Z.shiftl_spec by lia.
  destruct (Z.ltb_spec n (8 * j)) as [Hlow|Hhigh].
  - rewrite (Z.testbit_neg_r _ (n - j * 8)) by lia.
    destruct (Z.ltb_spec n (8 * (j + 1))); [| lia].
    cbn [andb]. rewrite Bool.andb_false_r, Bool.orb_false_r. reflexivity.
  - rewrite Z.testbit_mod_pow2, Z.shiftr_spec by lia.
    replace (n - j * 8 + j * 8) with n by lia. cbn [andb orb].
    destruct (Z.ltb_spec n (8 * (j + 1))), (Z.ltb_spec (n - j * 8) 8),
      (Z.ltb_spec n 64); try lia; reflexivity.
Qed.

Lemma low_bytes_0 (num : bigint) :
  length num = r_limbs -> low_bytes num 0 = bigint_zero.
Proof.
  intros Hnum. unfold low_bytes, bigint_zero. apply list_eq. intros l.
  rewrite list_lookup_imap. destruct (num !! l) as [d|] eqn:Hd.
  - apply lookup_lt_Some in Hd. rewrite lookup_replicate_2 by lia.
    cbn [fmap option_fmap option_map]. f_equal. cbn. apply Z.mod_1_r.
  - apply lookup_ge_None in Hd. symmetry. apply lookup_ge_None.
    rewrite length_replicate. lia.
Qed.

Lemma low_bytes_all (num : bigint) :
  wf_bigint num -> low_bytes num (bytes_per_limb * r_limbs) = num.
Proof.
  intros [Hlen Hrange]. unfold low_bytes. apply list_eq. intros l.
  rewrite list_lookup_imap. destruct (num !! l) as [d|] eqn:Hd; [| reflexivity].
  cbn [fmap option_fmap option_map]. f_equal.
  pose proof (lookup_lt_Some _ _ _ Hd) as Hl.
  rewrite Forall_lookup in Hrange. specialize (Hrange l d Hd).
  replace (Nat.min bytes_per_limb (bytes_per_limb * r_limbs - bytes_per_limb * l))
    with 8%nat by (unfold bytes_per_limb; lia).
  apply Z.mod_small. exact Hrange.
Qed.

Lemma low_bytes_step (num : bigint) (k : nat) (d : Z) :
  num !! (k / bytes_per_limb)%nat = Some d ->
  <[(k / bytes_per_limb)%nat :=
      Z.lor (d mod 2 ^ (8 * Z.of_nat (k mod bytes_per_limb)))
            (uint64 (Z.shiftl (bigint_byte num k)
                              (Z.of_nat (k mod bytes_per_limb) * 8)))]>
    (low_bytes num k)
  = low_bytes num (S k).
Proof.
  intros Hd. unfold bigint_byte. rewrite Hd. cbn [default from_option].
  pose proof (Nat.div_mod_eq k bytes_per_limb) as Hk.
  pose proof (Nat.mod_upper_bound k bytes_per_limb ltac:(discriminate)) as Hm.
  fold bytes_per_limb in Hk, Hm.
  set (l0 := (k / bytes_per_limb)%nat) in *.
  set (j := (k mod bytes_per_limb)%nat) in *.
  rewrite lor_next_byte by (unfold bytes_per_limb in Hm; lia).
  unfold low_bytes. apply list_eq. intros l.
  destruct (decide (l = l0)) as [->|Hne].
  - rewrite list_lookup_insert_eq
      by (rewrite length_imap; eapply lookup_lt_Some; exact Hd).
    rewrite list_lookup_imap, Hd. cbn [fmap option_fmap option_map].
    do 3 f_equal. unfold bytes_per_limb in *. lia.
  - rewrite list_lookup_insert_ne by congruence.
    rewrite !list_lookup_imap. destruct (num !! l) as [d'|]; [| reflexivity].
    cbn [fmap option_fmap option_map]. do 4 f_equal.
    unfold bytes_per_limb in *. lia.
Qed.

(** Reading back the little-endian image of a [bigint] gives the
    [bigint]. *)
Lemma from_le_bigint_bytes (num : bigint) (bytes : list Z) (size : nat) :
  wf_bigint num ->
  size = (bytes_per_limb * r_limbs)%nat ->
  (forall k, (k < size)%nat -> bytes !! k = Some (bigint_byte num k)) ->
  from_le bytes size = Ok num.
Proof.
  intros Hwf Hsize Hbytes. pose proof Hwf as [Hlen _]. unfold from_le.
  destruct (Nat.leb_spec size (bytes_per_limb * r_limbs)) as [_|]; [| lia].
  destruct (for_loop_inv (fun k acc => acc = low_bytes num k)
    (fun byte num0 =>
       b ← read bytes byte;
       d ← read num0 (byte / bytes_per_limb)%nat;
       Ok (<[(byte / bytes_per_limb)%nat :=
               Z.lor d (uint64 (Z.shiftl b (Z.of_nat (byte mod bytes_per_limb) * 8)))]>
             num0))
    size 0 bigint_zero) as (acc & Hloop & Hacc).
  - symmetry. apply low_bytes_0. exact Hlen.
  - intros k acc Hk ->.
    assert (Hlimb : (k / bytes_per_limb < length num)%nat).
    { rewrite Hlen. apply Nat.Div0.div_lt_upper_bound. lia. }
    destruct (lookup_lt_is_Some_2 num _ Hlimb) as [d Hd].
    eexists. split.
    + rewrite (bind_Ok _ _ _ (read_Ok _ _ _ (Hbytes k ltac:(lia)))).
      erewrite bind_Ok; [reflexivity |]. apply read_Ok.
      unfold low_bytes. rewrite list_lookup_imap, Hd. reflexivity.
    + cbv beta.
      replace (Nat.min bytes_per_limb (k - bytes_per_limb * (k / bytes_per_limb)))
        with (k mod bytes_per_limb)%nat.
      * apply low_bytes_step. exact Hd.
      * pose proof (Nat.div_mod_eq k bytes_per_limb).
        pose proof (Nat.mod_upper_bound k bytes_per_limb ltac:(discriminate)).
        lia.
  - rewrite Hloop, Hacc. cbn [Nat.add]. rewrite Hsize.
    rewrite low_bytes_all by assumption. reflexivity.
Qed.

(** ** Field elements and their limbs *)

Lemma wf_as_bigint (e : FieldT) : wf_bigint (as_bigint e).
Proof.
  unfold wf_bigint, as_bigint. split.
  - rewrite length_fmap, length_seq. reflexivity.
  - apply Forall_fmap, Forall_forall. intros limb _. unfold uint64. cbn beta.
    apply Z.mod_pos_bound. lia.
Qed.

Lemma bigint_value_limbs (e : Z) (n s : nat) :
  bigint_value
    ((fun limb : nat => uint64 (Z.shiftr e (64 * Z.of_nat limb))) <$> seq s n)
  = Z.shiftr e (64 * Z.of_nat s) mod 2 ^ (64 * Z.of_nat n).
Proof.
  revert s. induction n as [|n IH]; intros s.
  - cbn. rewrite Z.mod_1_r. reflexivity.
  - cbn [seq fmap list_fmap]. unfold bigint_value in *. cbn [foldr].
    rewrite IH. unfold uint64.
    replace (64 * Z.of_nat (S s)) with (64 * Z.of_nat s + 64) by lia.
    rewrite <- Z.shiftr_shiftr by lia.
    rewrite (Z.shiftr_div_pow2 _ 64) by lia.
    replace (64 * Z.of_nat (S n)) with (64 + 64 * Z.of_nat n) by lia.
    rewrite Z.pow_add_r by lia.
    rewrite Z.rem_mul_r by lia. reflexivity.
Qed.

(** [FieldT(e.as_bigint()) == e] for a field that fits its limbs. *)
Lemma FieldT_of_as_bigint (e : FieldT) :
  0 <= e < modulus ->
  modulus <= 2 ^ (64 * Z.of_nat r_limbs) ->
  FieldT_of_bigint (as_bigint e) = e.
Proof.
  intros He Hmod. unfold FieldT_of_bigint, as_bigint.
  rewrite bigint_value_limbs. cbn [Z.of_nat Z.mul]. rewrite Z.shiftr_0_r.
  rewrite (Z.mod_small e (2 ^ _)) by lia. apply Z.mod_small. exact He.
Qed.

Lemma encode_le_bigint_bytes (e : FieldT) (width : nat) :
  width = (bytes_per_limb * r_limbs)%nat ->
  encode_le e width = Ok (bigint_bytes (as_bigint e) width).
Proof.
  intros Hwidth. unfold encode_le.
  rewrite into_le_window;
    [| apply wf_as_bigint | assumption | rewrite length_replicate; lia].
  rewrite take_0, drop_ge by (rewrite length_replicate; lia).
  cbn [app]. rewrite app_nil_r. reflexivity.
Qed.

Lemma decode_le_bigint_bytes (e : FieldT) (width : nat) :
  0 <= e < modulus ->
  modulus <= 2 ^ (64 * Z.of_nat r_limbs) ->
  width = (bytes_per_limb * r_limbs)%nat ->
  decode_le (bigint_bytes (as_bigint e) width) width = Ok e.
Proof.
  intros He Hmod Hwidth. unfold decode_le.
  rewrite (from_le_bigint_bytes (as_bigint e));
    [| apply wf_as_bigint | assumption
     | intros k Hk; apply lookup_bigint_bytes; assumption].
  cbn. rewrite FieldT_of_as_bigint by assumption. reflexivity.
Qed.

(** C4, as the code has it: at the width of the limbs, the one width
    that the assertions of [into_le] and [from_le] both accept, decoding
    the encoding of a field element [e] returns [e]. *)
Theorem decode_encode_limb_width (e : FieldT) (width : nat) :
  0 <= e < modulus ->
  modulus <= 2 ^ (64 * Z.of_nat r_limbs) ->
  width = (bytes_per_limb * r_limbs)%nat ->
  (encode_le e width ≫= fun bytes => decode_le bytes width) = Ok e.
Proof.
  intros He Hmod Hwidth.
  rewrite (bind_Ok _ _ _ (encode_le_bigint_bytes e width Hwidth)).
  apply decode_le_bigint_bytes; assumption.
Qed.

(** At any other width one of the two assertions fails, or [into_le]
    reads past the limbs. *)
Lemma decode_encode_other_width (e : FieldT) (width : nat) :
  width <> (bytes_per_limb * r_limbs)%nat ->
  (encode_le e width ≫= fun bytes => decode_le bytes width) <> Ok e.
Proof.
  intros Hwidth Heq. apply bind_inv_Ok in Heq as (bytes & Henc & Hdec).
  unfold encode_le, into_le in Henc. unfold decode_le, from_le in Hdec.
  destruct (Nat.leb_spec (bytes_per_limb * r_limbs) width); [| discriminate].
  destruct (Nat.leb_spec width (bytes_per_limb * r_limbs)); [lia | discriminate].
Qed.

(** ** The bulk decoder *)

Lemma for_loop_ext {St : Type} (body1 body2 : nat -> St -> outcome St)
    (n lo : nat) (s : St) :
  (forall i s, (lo <= i < lo + n)%nat -> body1 i s = body2 i s) ->
  for_loop lo n body1 s = for_loop lo n body2 s.
Proof.
  revert lo s. induction n as [|n IH]; intros lo s Hext; [reflexivity |].
  cbn [for_loop]. rewrite Hext by lia.
  destruct (body2 lo s) as [s1|f]; [| reflexivity].
  cbn. apply IH. intros i s' Hi. apply Hext. lia.
Qed.

(** [from_le] reads the first [size] bytes only. *)
Lemma from_le_take (bytes : list Z) (size : nat) :
  from_le (take size bytes) size = from_le bytes size.
Proof.
  unfold from_le. destruct (size <=? bytes_per_limb * r_limbs)%nat; [| reflexivity].
  apply for_loop_ext. intros k num Hk.
  replace (read (take size bytes) k) with (read bytes k); [reflexivity |].
  unfold read. rewrite lookup_take_lt by lia. reflexivity.
Qed.

(** [from_le] returns when its assertion holds and the bytes are there. *)
Lemma from_le_total (bytes : list Z) (size : nat) :
  (size <= bytes_per_limb * r_limbs)%nat ->
  (size <= length bytes)%nat ->
  exists num, from_le bytes size = Ok num /\ length num = r_limbs.
Proof.
  intros Hcap Hlen. unfold from_le.
  destruct (Nat.leb_spec size (bytes_per_limb * r_limbs)) as [_|]; [| lia].
  destruct (for_loop_inv (fun _ acc => length acc = r_limbs)
    (fun byte num0 =>
       b ← read bytes byte;
       d ← read num0 (byte / bytes_per_limb)%nat;
       Ok (<[(byte / bytes_per_limb)%nat :=
               Z.lor d (uint64 (Z.shiftl b (Z.of_nat (byte mod bytes_per_limb) * 8)))]>
             num0))
    size 0 bigint_zero) as (acc & Hloop & Hacc).
  - unfold bigint_zero. apply length_replicate.
  - intros k acc Hk Hacc.
    destruct (lookup_lt_is_Some_2 bytes k ltac:(lia)) as [b0 Hb].
    assert (Hlimb : (k / bytes_per_limb < length acc)%nat).
    { rewrite Hacc. apply Nat.Div0.div_lt_upper_bound. lia. }
    destruct (lookup_lt_is_Some_2 acc _ Hlimb) as [d Hd].
    eexists. split.
    + rewrite (bind_Ok _ _ _ (read_Ok _ _ _ Hb)).
      rewrite (bind_Ok _ _ _ (read_Ok _ _ _ Hd)). reflexivity.
    + rewrite length_insert. exact Hacc.
  - exists acc. split; assumption.
Qed.

Lemma from_le_assert (bytes : list Z) (size : nat) :
  (bytes_per_limb * r_limbs < size)%nat ->
  from_le bytes size = Abort AssertionFailed.
Proof.
  intros Hcap. unfold from_le.
  destruct (Nat.leb_spec size (bytes_per_limb * r_limbs)); [lia | reflexivity].
Qed.

(** ** The number that [from_le] reads *)

Lemma le_value_snoc (bytes : list Z) (b : Z) :
  le_value (bytes ++ [b]) = le_value bytes + 2 ^ (8 * Z.of_nat (length bytes)) * b.
Proof.
  induction bytes as [|b0 bytes IH].
  - cbn. lia.
  - cbn [app length]. unfold le_value in *. cbn [foldr]. rewrite IH.
    replace (8 * Z.of_nat (S (length bytes))) with (8 + 8 * Z.of_nat (length bytes))
      by lia.
    rewrite Z.pow_add_r by lia. ring.
Qed.

Lemma le_value_bound (bytes : list Z) :
  Forall is_byte bytes -> 0 <= le_value bytes < 2 ^ (8 * Z.of_nat (length bytes)).
Proof.
  induction 1 as [|b bytes Hb _ IH].
  - cbn. lia.
  - unfold le_value in *. cbn [foldr length]. unfold is_byte in Hb.
    replace (8 * Z.of_nat (S (length bytes))) with (8 + 8 * Z.of_nat (length bytes))
      by lia.
    rewrite Z.pow_add_r by lia. nia.
Qed.

Lemma testbit_above (v n m : Z) :
  0 <= v < 2 ^ n -> n <= m -> Z.testbit v m = false.
Proof.
  intros Hv Hm. destruct (Z.ltb_spec n 0) as [Hneg|Hn].
  - rewrite Z.pow_neg_r in Hv by assumption. lia.
  - rewrite <- (Z.mod_small v (2 ^ n)) by assumption.
    apply Z.mod_pow2_bits_high. lia.
Qed.

(** The bits of a number with a byte put on top of it. *)
Lemma testbit_add_shifted (v b n m : Z) :
  0 <= v < 2 ^ n -> 0 <= n -> 0 <= m ->
  Z.testbit (v + 2 ^ n * b) m
  = if m <? n then Z.testbit v m else Z.testbit b (m - n).
Proof.
  intros Hv Hn Hm. destruct (Z.ltb_spec m n) as [Hlt|Hge].
  - rewrite <- (Z.mod_pow2_bits_low (v + 2 ^ n * b) n m) by assumption.
    rewrite (Z.mul_comm (2 ^ n) b), Z_mod_plus_full, Z.mod_small by assumption.
    reflexivity.
  - replace m with (m - n + n) at 1 by lia.
    rewrite <- Z.div_pow2_bits by lia.
    rewrite (Z.mul_comm (2 ^ n) b), Z.div_add, Z.div_small by lia.
    reflexivity.
Qed.

Lemma lookup_as_bigint (v : Z) (limb : nat) :
  (limb < r_limbs)%nat ->
  as_bigint v !! limb = Some (uint64 (Z.shiftr v (64 * Z.of_nat limb))).
Proof.
  intros Hl. unfold as_bigint.
  rewrite list_lookup_fmap, lookup_seq_lt by assumption. reflexivity.
Qed.

Lemma as_bigint_0 : as_bigint 0 = bigint_zero.
Proof.
  unfold as_bigint, bigint_zero. apply list_eq. intros limb.
  rewrite list_lookup_fmap. destruct (decide (limb < r_limbs)%nat) as [Hl|Hl].
  - rewrite lookup_seq_lt, lookup_replicate_2 by assumption.
    cbn. rewrite Z.shiftr_0_l. reflexivity.
  - rewrite lookup_seq_ge by lia. symmetry. apply lookup_ge_None.
    rewrite length_replicate. lia.
Qed.

(** One iteration of [from_le] on the limbs of [v], a number of [k] bytes,
    gives the limbs of [v] with the byte [b] put on top. *)
Lemma as_bigint_next_byte (v b : Z) (k : nat) :
  0 <= v < 2 ^ (8 * Z.of_nat k) ->
  is_byte b ->
  (k < bytes_per_limb * r_limbs)%nat ->
  <[(k / bytes_per_limb)%nat :=
      Z.lor (uint64 (Z.shiftr v (64 * Z.of_nat (k / bytes_per_limb))))
            (uint64 (Z.shiftl b (Z.of_nat (k mod bytes_per_limb) * 8)))]>
    (as_bigint v)
  = as_bigint (v + 2 ^ (8 * Z.of_nat k) * b).
Proof.
  intros Hv Hb Hk.
  pose proof (Nat.div_mod_eq k bytes_per_limb) as Hdm.
  pose proof (Nat.mod_upper_bound k bytes_per_limb ltac:(discriminate)) as Hm.
  assert (Hl0 : (k / bytes_per_limb < r_limbs)%nat)
    by (apply Nat.Div0.div_lt_upper_bound; lia).
  set (l0 := (k / bytes_per_limb)%nat) in *.
  set (j := (k mod bytes_per_limb)%nat) in *.
  unfold bytes_per_limb in *.
  assert (Hbits : forall m, 8 <= m -> Z.testbit b m = false)
    by (intros m Hm8; apply (testbit_above b 8); assumption).
  assert (Hvbits : forall m, 8 * Z.of_nat k <= m -> Z.testbit v m = false)
    by (intros m Hm8; apply (testbit_above v (8 * Z.of_nat k)); assumption).
  apply list_eq. intros limb.
  destruct (decide (limb < r_limbs)%nat) as [Hl|Hl].
  2:{ rewrite list_lookup_insert_ne by lia. unfold as_bigint.
      rewrite !list_lookup_fmap, !lookup_seq_ge by lia. reflexivity. }
  rewrite (lookup_as_bigint (v + _)) by assumption.
  destruct (decide (limb = l0)) as [->|Hne].
  - rewrite list_lookup_insert_eq
      by (unfold as_bigint; rewrite length_fmap, length_seq; assumption).
    f_equal. unfold uint64. apply Z.bits_inj'. intros m Hm0.
    rewrite Z.lor_spec, !Z.testbit_mod_pow2 by lia.
    rewrite !Z.shiftr_spec, Z.shiftl_spec by lia.
    rewrite testbit_add_shifted by lia.
    destruct (Z.ltb_spec m 64) as [Hm64|Hm64]; [| reflexivity]. cbn [andb].
    destruct (Z.ltb_spec (m + 64 * Z.of_nat l0) (8 * Z.of_nat k)) as [Hlow|Hhigh].
    + rewrite (Z.testbit_neg_r b) by lia. apply Bool.orb_false_r.
    + rewrite Hvbits by lia. cbn [orb]. f_equal. lia.
  - rewrite list_lookup_insert_ne by congruence.
    rewrite lookup_as_bigint by assumption.
    f_equal. unfold uint64. apply Z.bits_inj'. intros m Hm0.
    rewrite !Z.testbit_mod_pow2 by lia. rewrite !Z.shiftr_spec by lia.
    rewrite testbit_add_shifted by lia.
    destruct (Z.ltb_spec m 64) as [Hm64|Hm64]; [| reflexivity]. cbn [andb].
    destruct (Z.ltb_spec (m + 64 * Z.of_nat limb) (8 * Z.of_nat k)) as [Hlow|Hhigh];
      [reflexivity |].
    rewrite Hvbits, Hbits by lia. reflexivity.
Qed.

(** [from_le] on bytes returns the limbs of the number that the first
    [size] bytes denote. *)
Lemma from_le_value (bytes : list Z) (size : nat) :
  Forall is_byte bytes ->
  (size <= bytes_per_limb * r_limbs)%nat ->
  (size <= length bytes)%nat ->
  from_le bytes size = Ok (as_bigint (le_value (take size bytes))).
Proof.
  intros Hbytes Hcap Hlen. unfold from_le.
  destruct (Nat.leb_spec size (bytes_per_limb * r_limbs)) as [_|]; [| lia].
  destruct (for_loop_inv
    (fun k acc => acc = as_bigint (le_value (take k bytes)))
    (fun byte num0 =>
       b ← read bytes byte;
       d ← read num0 (byte / bytes_per_limb)%nat;
       Ok (<[(byte / bytes_per_limb)%nat :=
               Z.lor d (uint64 (Z.shiftl b (Z.of_nat (byte mod bytes_per_limb) * 8)))]>
             num0))
    size 0 bigint_zero) as (acc & Hloop & Hacc).
  - rewrite take_0. symmetry. apply as_bigint_0.
  - intros k acc Hk ->.
    destruct (lookup_lt_is_Some_2 bytes k ltac:(lia)) as [b0 Hb].
    assert (Hl0 : (k / bytes_per_limb < r_limbs)%nat)
      by (apply Nat.Div0.div_lt_upper_bound; lia).
    eexists. split.
    + rewrite (bind_Ok _ _ _ (read_Ok _ _ _ Hb)).
      rewrite (bind_Ok _ _ _ (read_Ok _ _ _ (lookup_as_bigint _ _ Hl0))).
      reflexivity.
    + rewrite (take_S_r _ _ _ Hb), le_value_snoc.
      rewrite length_take, Nat.min_l by lia.
      apply as_bigint_next_byte; [| | lia].
      * pose proof (le_value_bound (take k bytes) (Forall_take _ _ _ Hbytes)) as Hv.
        rewrite length_take, Nat.min_l in Hv by lia. exact Hv.
      * rewrite Forall_lookup in Hbytes. apply (Hbytes k b0 Hb).
  - rewrite Hloop, Hacc. reflexivity.
Qed.

(** Decoding [size] bytes gives the number that they denote, reduced
    modulo the field order. *)
Lemma decode_le_value (bytes : list Z) (size : nat) :
  Forall is_byte bytes ->
  (size <= bytes_per_limb * r_limbs)%nat ->
  (size <= length bytes)%nat ->
  decode_le bytes size = Ok (le_value (take size bytes) mod modulus).
Proof.
  intros Hbytes Hcap Hlen. unfold decode_le.
  rewrite from_le_value by assumption. cbn. f_equal.
  unfold FieldT_of_bigint, as_bigint. rewrite bigint_value_limbs.
  cbn [Z.of_nat Z.mul]. rewrite Z.shiftr_0_r. f_equal.
  pose proof (le_value_bound (take size bytes) (Forall_take _ _ _ Hbytes)) as Hv.
  rewrite length_take, Nat.min_l in Hv by lia.
  apply Z.mod_small. split; [lia |].
  eapply Z.lt_le_trans; [apply Hv |].
  apply Z.pow_le_mono_r; unfold bytes_per_limb in Hcap; lia.
Qed.

Lemma decode_le_chunk (from_bytes : list Z) (element_size i : nat) :
  decode_le (chunk from_bytes element_size i) element_size
  = decode_le (drop (element_size * i) from_bytes) element_size.
Proof. unfold decode_le, chunk. rewrite from_le_take. reflexivity. Qed.

Lemma decode_le_total (bytes : list Z) (size : nat) :
  (size <= bytes_per_limb * r_limbs)%nat ->
  (size <= length bytes)%nat ->
  exists e, decode_le bytes size = Ok e.
Proof.
  intros Hcap Hlen. destruct (from_le_total bytes size Hcap Hlen) as (num & Hnum & _).
  exists (FieldT_of_bigint num). unfold decode_le. rewrite Hnum. reflexivity.
Qed.

(** [le_into_elements] decodes the [num_elements] consecutive chunks. *)
Lemma le_into_elements_chunks (from_bytes : list Z) (num_elements element_size : nat) :
  (element_size <= bytes_per_limb * r_limbs)%nat ->
  (num_elements * element_size <= length from_bytes)%nat ->
  exists elements,
    le_into_elements from_bytes num_elements element_size = Ok elements
    /\ length elements = num_elements
    /\ forall i, (i < num_elements)%nat ->
         exists e, decode_le (chunk from_bytes element_size i) element_size = Ok e
                   /\ elements !! i = Some e.
Proof.
  intros Hcap Hlen. unfold le_into_elements.
  destruct (for_loop_inv
    (fun k (es : list Z) =>
       length es = num_elements
       /\ forall i, (i < k)%nat ->
            exists e, decode_le (chunk from_bytes element_size i) element_size = Ok e
                      /\ es !! i = Some e)
    (fun i to_elements =>
       num ← from_le (drop (element_size * i) from_bytes) element_size;
       write to_elements i (FieldT_of_bigint num))
    num_elements 0 (replicate num_elements 0)) as (es & Hloop & Hes & Hchunks).
  - split; [apply length_replicate | intros i Hi; lia].
  - intros k es Hk [Hes Hdone].
    destruct (from_le_total (drop (element_size * k) from_bytes) element_size Hcap)
      as (num & Hnum & _).
    { rewrite length_drop. nia. }
    eexists. split.
    + rewrite (bind_Ok _ _ _ Hnum). apply write_Ok. lia.
    + split; [rewrite length_insert; exact Hes |].
      intros i Hi. destruct (decide (i = k)) as [->|Hne].
      * exists (FieldT_of_bigint num). split.
        -- rewrite decode_le_chunk. unfold decode_le. rewrite Hnum. reflexivity.
        -- apply list_lookup_insert_eq. lia.
      * destruct (Hdone i ltac:(lia)) as (e & He & Hi').
        exists e. split; [exact He |].
        rewrite list_lookup_insert_ne by congruence. exact Hi'.
  - exists es. split; [exact Hloop |]. split; [exact Hes | exact Hchunks].
Qed.

(** An element wider than the limbs stops at the assertion of [from_le]. *)
Lemma le_into_elements_assert (from_bytes : list Z) (num_elements element_size : nat) :
  (0 < num_elements)%nat ->
  (bytes_per_limb * r_limbs < element_size)%nat ->
  le_into_elements from_bytes num_elements element_size = Abort AssertionFailed.
Proof.
  intros Hn Hcap. unfold le_into_elements.
  destruct num_elements as [|n]; [lia |]. cbn [for_loop].
  rewrite from_le_assert by assumption. reflexivity.
Qed.

Lemma deserialize_elements_assert (from_bytes : list Z) (num_elements : nat) :
  (0 < num_elements)%nat ->
  (bytes_per_limb * r_limbs < length from_bytes / num_elements)%nat ->
  deserialize_elements from_bytes num_elements = Abort AssertionFailed.
Proof.
  intros Hn Hcap. unfold deserialize_elements.
  destruct (Nat.eqb_spec num_elements 0); [lia |].
  apply le_into_elements_assert; assumption.
Qed.

Lemma chunk_take (from_bytes : list Z) (element_size n i : nat) :
  (i < n)%nat ->
  chunk (take (n * element_size) from_bytes) element_size i
  = chunk from_bytes element_size i.
Proof.
  intros Hi. unfold chunk. apply list_eq. intros k.
  rewrite !lookup_take. destruct (decide (k < element_size)%nat); [| reflexivity].
  rewrite !lookup_drop. apply lookup_take_lt. nia.
Qed.

(** The bytes after the last whole element play no role. *)
Lemma deserialize_elements_trailing (from_bytes : list Z) (num_elements : nat) :
  deserialize_elements
    (take (num_elements * (length from_bytes / num_elements)) from_bytes)
    num_elements
  = deserialize_elements from_bytes num_elements.
Proof.
  unfold deserialize_elements.
  destruct (Nat.eqb_spec num_elements 0) as [|Hn]; [reflexivity |].
  pose proof (Nat.Div0.mul_div_le (length from_bytes) num_elements) as Hle.
  rewrite length_take, Nat.min_l by lia.
  rewrite Nat.mul_comm, Nat.div_mul by assumption.
  set (element_size := (length from_bytes / num_elements)%nat) in *.
  unfold le_into_elements. apply for_loop_ext. intros i es Hi.
  rewrite <- (from_le_take (drop _ (take _ _))), <- (from_le_take (drop _ from_bytes)).
  pose proof (chunk_take from_bytes element_size num_elements i ltac:(lia)) as Hc.
  unfold chunk in Hc. rewrite (Nat.mul_comm element_size num_elements), Hc.
  reflexivity.
Qed.

Lemma deserialize_elements_returns (from_bytes : list Z) (num_elements : nat) :
  (0 < num_elements)%nat ->
  (length from_bytes / num_elements <= bytes_per_limb * r_limbs)%nat ->
  exists elements,
    deserialize_elements from_bytes num_elements = Ok elements
    /\ length elements = num_elements.
Proof.
  intros Hn Hcap. unfold deserialize_elements.
  destruct (Nat.eqb_spec num_elements 0); [lia |].
  destruct (le_into_elements_chunks from_bytes num_elements _ Hcap)
    as (es & Hes & Hlen & _); [apply Nat.Div0.mul_div_le |].
  exists es. split; assumption.
Qed.

(** The elements of a buffer of bytes, in closed form. *)
Lemma deserialize_elements_values (from_bytes : list Z) (num_elements : nat) :
  (0 < num_elements)%nat ->
  (length from_bytes / num_elements <= bytes_per_limb * r_limbs)%nat ->
  Forall is_byte from_bytes ->
  deserialize_elements from_bytes num_elements
  = Ok ((fun i => le_value (chunk from_bytes (length from_bytes / num_elements) i)
                  mod modulus)
        <$> seq 0 num_elements).
Proof.
  intros Hn Hcap Hbytes. unfold deserialize_elements.
  destruct (Nat.eqb_spec num_elements 0); [lia |].
  pose proof (Nat.Div0.mul_div_le (length from_bytes) num_elements) as Hle.
  set (element_size := (length from_bytes / num_elements)%nat) in *.
  destruct (le_into_elements_chunks from_bytes num_elements element_size Hcap)
    as (es & Hes & Hlen & Hchunks); [lia |].
  rewrite Hes. f_equal. apply list_eq. intros i.
  rewrite list_lookup_fmap. destruct (decide (i < num_elements)%nat) as [Hi|Hi].
  - destruct (Hchunks i Hi) as (e & He & ->). rewrite lookup_seq_lt by assumption.
    cbn. f_equal. rewrite decode_le_value in He.
    + unfold chunk in He at 1. rewrite take_idemp in He.
      fold (chunk from_bytes element_size i) in He.
      injection He as <-. reflexivity.
    + unfold chunk. apply Forall_take, Forall_drop. exact Hbytes.
    + exact Hcap.
    + unfold chunk. rewrite length_take, length_drop. nia.
  - rewrite lookup_seq_ge by lia. apply lookup_ge_None. lia.
Qed.

(** C3, as the code has it: for a nonzero count [deserialize_elements]
    takes the integer quotient of the byte length by the count as the
    element size and decodes with it; an inexact division is no error:
    the elements are returned and the bytes after the last whole element
    are ignored. *)
Theorem deserialize_elements_inexact (from_bytes : list Z) (num_elements : nat) :
  (0 < num_elements)%nat ->
  (length from_bytes / num_elements <= bytes_per_limb * r_limbs)%nat ->
  deserialize_elements from_bytes num_elements
  = le_into_elements from_bytes num_elements (length from_bytes / num_elements)
  /\ (exists elements,
        deserialize_elements from_bytes num_elements = Ok elements
        /\ length elements = num_elements)
  /\ deserialize_elements
       (take (num_elements * (length from_bytes / num_elements)) from_bytes)
       num_elements
     = deserialize_elements from_bytes num_elements.
Proof.
  intros Hn Hcap.
  assert (Hdef : deserialize_elements from_bytes num_elements
                 = le_into_elements from_bytes num_elements
                     (length from_bytes / num_elements)).
  { unfold deserialize_elements.
    destruct (Nat.eqb_spec num_elements 0); [lia | reflexivity]. }
  split; [exact Hdef |]. split; [| apply deserialize_elements_trailing].
  apply deserialize_elements_returns; assumption.
Qed.

(** C9, as the code has it: for a nonzero count and an element size
    (the integer quotient of the byte length by the count) within the
    limbs, [deserialize_elements] returns exactly [num_elements]
    elements, element [i] decoded from the chunk of that size at offset
    [i] times that size: on bytes, the number that the chunk denotes
    modulo the field order. The bytes that remain are ignored without an
    error. A zero count is a division by zero. *)
Theorem deserialize_elements_chunks (from_bytes : list Z) (num_elements : nat) :
  (0 < num_elements)%nat ->
  (length from_bytes / num_elements <= bytes_per_limb * r_limbs)%nat ->
  (exists elements,
     deserialize_elements from_bytes num_elements = Ok elements
     /\ length elements = num_elements
     /\ forall i, (i < num_elements)%nat ->
          exists e,
            decode_le (chunk from_bytes (length from_bytes / num_elements) i)
                      (length from_bytes / num_elements) = Ok e
            /\ elements !! i = Some e)
  /\ (Forall is_byte from_bytes ->
      deserialize_elements from_bytes num_elements
      = Ok ((fun i => le_value (chunk from_bytes (length from_bytes / num_elements) i)
                      mod modulus)
            <$> seq 0 num_elements))
  /\ (forall trailing,
        (length trailing < num_elements - length from_bytes mod num_elements)%nat ->
        deserialize_elements (from_bytes ++ trailing) num_elements
        = deserialize_elements
            (take (num_elements * (length from_bytes / num_elements)) from_bytes)
            num_elements)
  /\ deserialize_elements from_bytes 0 = Abort DivisionByZero.
Proof.
  intros Hn Hcap. split; [| split; [| split; [| reflexivity]]].
  - unfold deserialize_elements.
    destruct (Nat.eqb_spec num_elements 0); [lia |].
    apply le_into_elements_chunks; [exact Hcap | apply Nat.Div0.mul_div_le].
  - apply deserialize_elements_values; assumption.
  - intros trailing Htrail.
    rewrite <- (deserialize_elements_trailing (from_bytes ++ trailing)).
    rewrite length_app.
    pose proof (Nat.div_mod_eq (length from_bytes) num_elements) as Hdm.
    assert (Hq : ((length from_bytes + length trailing) / num_elements
                  = length from_bytes / num_elements)%nat).
    { symmetry. apply (Nat.div_unique _ _ _
        (length from_bytes mod num_elements + length trailing)); lia. }
    rewrite Hq. rewrite take_app_le; [reflexivity |].
    pose proof (Nat.Div0.mul_div_le (length from_bytes) num_elements). lia.
Qed.

(** ** Import of constraints *)

Lemma deserialize_elements_decodable (variables : Variables) :
  decodable variables ->
  exists elements,
    deserialize_elements (values variables) (length (variable_ids variables))
    = Ok elements
    /\ length elements = length (variable_ids variables).
Proof.
  intros [Hn Hcap]. apply deserialize_elements_returns; assumption.
Qed.

(** The terms of an imported linear combination: the wire ids as they
    are, paired with the decoded elements, in wire order. *)
Lemma deserialize_lincomb_terms (terms : Variables) (elements : list FieldT) :
  deserialize_elements (values terms) (length (variable_ids terms)) = Ok elements ->
  length elements = length (variable_ids terms) ->
  deserialize_lincomb terms = Ok (zip_with mkTerm (variable_ids terms) elements).
Proof.
  intros Hes Hlen. unfold deserialize_lincomb. rewrite (bind_Ok _ _ _ Hes).
  set (ids := variable_ids terms) in *.
  destruct (for_loop_inv
    (fun k lc => lc = take k (zip_with mkTerm ids elements))
    (fun i lc => id ← read ids i; e ← read elements i; Ok (add_term lc id e))
    (length ids) 0 []) as (lc & Hloop & Hlc).
  - reflexivity.
  - intros k lc Hk ->.
    destruct (lookup_lt_is_Some_2 ids k ltac:(lia)) as [id Hid].
    destruct (lookup_lt_is_Some_2 elements k ltac:(lia)) as [e He].
    eexists. split.
    + rewrite (bind_Ok _ _ _ (read_Ok _ _ _ Hid)).
      rewrite (bind_Ok _ _ _ (read_Ok _ _ _ He)). reflexivity.
    + unfold add_term. symmetry. apply take_S_r.
      rewrite lookup_zip_with, Hid. cbn. rewrite He. reflexivity.
  - rewrite Hloop, Hlc. f_equal. apply take_ge.
    rewrite length_zip_with. lia.
Qed.

(** C1, as the code has it: importing a constraint whose three tables
    are decodable adds, for each linear combination and in wire order,
    one term per wire id, whose index is the wire id itself (no
    translation takes place) and whose coefficient is the decoded
    element. *)
Theorem deserialize_constraint_terms (constraint : BilinearConstraint) :
  decodable (linear_combination_a constraint) ->
  decodable (linear_combination_b constraint) ->
  decodable (linear_combination_c constraint) ->
  exists elements_a elements_b elements_c,
    deserialize_elements (values (linear_combination_a constraint))
      (length (variable_ids (linear_combination_a constraint))) = Ok elements_a
    /\ deserialize_elements (values (linear_combination_b constraint))
         (length (variable_ids (linear_combination_b constraint))) = Ok elements_b
    /\ deserialize_elements (values (linear_combination_c constraint))
         (length (variable_ids (linear_combination_c constraint))) = Ok elements_c
    /\ deserialize_lincomb (linear_combination_a constraint)
       = Ok (zip_with mkTerm (variable_ids (linear_combination_a constraint))
                      elements_a)
    /\ deserialize_constraint constraint
       = Ok (mkConstraint
               (zip_with mkTerm (variable_ids (linear_combination_a constraint))
                         elements_a)
               (zip_with mkTerm (variable_ids (linear_combination_b constraint))
                         elements_b)
               (zip_with mkTerm (variable_ids (linear_combination_c constraint))
                         elements_c)).
Proof.
  intros Ha Hb Hc.
  destruct (deserialize_elements_decodable _ Ha) as (ea & Hea & Hla).
  destruct (deserialize_elements_decodable _ Hb) as (eb & Heb & Hlb).
  destruct (deserialize_elements_decodable _ Hc) as (ec & Hec & Hlc).
  exists ea, eb, ec. repeat (split; [assumption |]).
  split; [apply deserialize_lincomb_terms; assumption |].
  unfold deserialize_constraint.
  rewrite (bind_Ok _ _ _ (deserialize_lincomb_terms _ _ Hea Hla)).
  rewrite (bind_Ok _ _ _ (deserialize_lincomb_terms _ _ Heb Hlb)).
  rewrite (bind_Ok _ _ _ (deserialize_lincomb_terms _ _ Hec Hlc)).
  reflexivity.
Qed.

(** ** Import of an assignment *)

Lemma assign_skip (vs : list Z) (id e : Z) :
  id = 0 -> assign vs (id, e) = vs.
Proof. intros ->. reflexivity. Qed.

Lemma assign_write (vs : list Z) (id e : Z) :
  id <> 0 -> assign vs (id, e) = <[Z.to_nat (id - 1) := e]> vs.
Proof.
  intros Hid. unfold assign. cbn [fst snd].
  destruct (Z.eqb_spec id 0); [contradiction | reflexivity].
Qed.

Lemma length_foldl_assign (pairs : list (Z * Z)) (vs : list Z) :
  length (foldl assign vs pairs) = length vs.
Proof.
  revert vs. induction pairs as [|p pairs IH]; intros vs; [reflexivity |].
  cbn [foldl]. rewrite IH. unfold assign.
  destruct (p.1 =? 0); [reflexivity | apply length_insert].
Qed.

Lemma foldl_assign_filter (pairs : list (Z * Z)) (vs : list Z) :
  foldl assign vs (filter (fun p => p.1 <> 0) pairs) = foldl assign vs pairs.
Proof.
  revert vs. induction pairs as [|p pairs IH]; intros vs; [reflexivity |].
  rewrite filter_cons. destruct (decide (p.1 <> 0)) as [Hp|Hp].
  - cbn [foldl]. apply IH.
  - cbn [foldl]. rewrite IH. f_equal. unfold assign.
    destruct (Z.eqb_spec p.1 0); [reflexivity | contradiction].
Qed.

(** The last pair of an id decides the value of its variable. *)
Lemma foldl_assign_last (pairs : list (Z * Z)) (vs : list Z) (i : nat) (id e : Z) :
  Forall (fun p => 0 <= p.1) pairs ->
  pairs !! i = Some (id, e) ->
  1 <= id <= Z.of_nat (length vs) ->
  (forall j p, (i < j)%nat -> pairs !! j = Some p -> p.1 <> id) ->
  foldl assign vs pairs !! Z.to_nat (id - 1) = Some e.
Proof.
  revert i. induction pairs as [|[id' e'] pairs IH] using rev_ind;
    intros i Hnn Hi Hid Hlast.
  - discriminate.
  - rewrite foldl_app. cbn [foldl].
    apply Forall_app in Hnn as [Hnn Hp]. rewrite Forall_singleton in Hp.
    cbn [fst] in Hp. destruct (decide (i < length pairs)%nat) as [Hlt|Hge].
    + rewrite lookup_app_l in Hi by assumption.
      assert (Hne : id' <> id).
      { apply (Hlast (length pairs) (id', e') Hlt).
        rewrite lookup_app_r, Nat.sub_diag by lia. reflexivity. }
      assert (IH' : foldl assign vs pairs !! Z.to_nat (id - 1) = Some e).
      { apply (IH i Hnn Hi Hid). intros j q Hj Hq. apply (Hlast j q Hj).
        rewrite lookup_app_l by (eapply lookup_lt_Some; exact Hq). exact Hq. }
      destruct (decide (id' = 0)) as [Hz|Hnz].
      * rewrite assign_skip by assumption. exact IH'.
      * rewrite assign_write by assumption.
        rewrite list_lookup_insert_ne by lia. exact IH'.
    + pose proof (lookup_lt_Some _ _ _ Hi) as Hi'.
      rewrite length_app in Hi'. cbn in Hi'.
      assert (i = length pairs) as -> by lia.
      rewrite lookup_app_r, Nat.sub_diag in Hi by lia.
      injection Hi as -> ->. rewrite assign_write by lia.
      apply list_lookup_insert_eq. rewrite length_foldl_assign. lia.
Qed.

(** The protoboard after an import whose ids are all allocated. *)
Lemma copy_variables_closed_form (pb : protoboard) (variables : Variables)
    (elements : list FieldT) :
  deserialize_elements (values variables) (length (variable_ids variables))
  = Ok elements ->
  length elements = length (variable_ids variables) ->
  Forall (fun id => 0 <= id <= Z.of_nat (num_variables pb)) (variable_ids variables) ->
  copy_variables_into_protoboard pb variables
  = Ok (mkProtoboard (constant_term pb)
          (foldl assign (pb_values pb) (zip (variable_ids variables) elements))
          (constraints pb)).
Proof.
  intros Hes Hlen Hids. unfold copy_variables_into_protoboard.
  rewrite (bind_Ok _ _ _ Hes). set (ids := variable_ids variables) in *.
  destruct (for_loop_inv
    (fun k pb0 =>
       pb0 = mkProtoboard (constant_term pb)
               (foldl assign (pb_values pb) (take k (zip ids elements)))
               (constraints pb))
    (copy_variable ids elements) (length ids) 0 pb) as (pb' & Hloop & Hpb').
  - destruct pb; reflexivity.
  - intros k pb0 Hk ->.
    destruct (lookup_lt_is_Some_2 ids k ltac:(lia)) as [id Hid].
    destruct (lookup_lt_is_Some_2 elements k ltac:(lia)) as [e He].
    assert (Hpair : zip ids elements !! k = Some (id, e)).
    { apply lookup_zip_Some. split; assumption. }
    rewrite (take_S_r _ _ _ Hpair), foldl_app. cbn [foldl]. unfold copy_variable.
    rewrite (bind_Ok _ _ _ (read_Ok _ _ _ Hid)).
    destruct (Z.eqb_spec id 0) as [Hz|Hnz];
      [rewrite assign_skip by assumption; eexists; split; reflexivity |].
    rewrite assign_write by assumption.
    rewrite (bind_Ok _ _ _ (read_Ok _ _ _ He)).
    rewrite Forall_lookup in Hids. specialize (Hids k id Hid).
    unfold num_variables in Hids. unfold set_val. cbn [pb_values constant_term constraints].
    rewrite length_foldl_assign.
    destruct (Z.leb_spec id (Z.of_nat (length (pb_values pb)))); [| lia].
    destruct (Z.eqb_spec id 0); [contradiction |].
    rewrite write_Ok by (rewrite length_foldl_assign; lia).
    eexists. split; reflexivity.
  - rewrite Hloop, Hpb'. cbn [Nat.add]. rewrite take_ge; [reflexivity |].
    rewrite length_zip. lia.
Qed.

(** C2, as the code has it: an import whose table is decodable and
    whose ids are all allocated returns; each pair with a nonzero wire id
    writes its value at the index that is the wire id itself (no
    translation takes place), pairs are applied in order and a later pair
    overwrites an earlier one, so the last pair of an id decides the
    value read at that id. *)
Theorem copy_variables_last_write (pb : protoboard) (variables : Variables) :
  decodable variables ->
  Forall (fun id => 0 <= id <= Z.of_nat (num_variables pb)) (variable_ids variables) ->
  exists elements pb',
    deserialize_elements (values variables) (length (variable_ids variables))
    = Ok elements
    /\ copy_variables_into_protoboard pb variables = Ok pb'
    /\ pb_values pb'
       = foldl assign (pb_values pb) (zip (variable_ids variables) elements)
    /\ forall i id e,
         variable_ids variables !! i = Some id ->
         elements !! i = Some e ->
         id <> 0 ->
         (forall j, (i < j)%nat -> variable_ids variables !! j <> Some id) ->
         val pb' id = Ok e.
Proof.
  intros Hdec Hids.
  destruct (deserialize_elements_decodable _ Hdec) as (es & Hes & Hlen).
  exists es. eexists. split; [exact Hes |].
  split; [apply (copy_variables_closed_form _ _ es); assumption |].
  cbn [pb_values]. split; [reflexivity |].
  intros i id e Hid He Hnz Hlast.
  pose proof Hids as Hrange. rewrite Forall_lookup in Hrange.
  specialize (Hrange i id Hid). unfold num_variables in Hrange.
  unfold val. cbn [pb_values constant_term]. rewrite length_foldl_assign.
  destruct (Z.leb_spec id (Z.of_nat (length (pb_values pb)))); [| lia].
  destruct (Z.eqb_spec id 0); [contradiction |].
  apply read_Ok. apply (foldl_assign_last _ _ i).
  - apply Forall_forall. intros [id' e'] Hin.
    apply list_elem_of_lookup in Hin as [j Hj].
    apply lookup_zip_Some in Hj as [Hj _]. cbn [fst].
    rewrite Forall_lookup in Hids. apply (Hids j id' Hj).
  - apply lookup_zip_Some. split; assumption.
  - lia.
  - intros j [id' e'] Hj Hq. cbn [fst]. intros ->.
    apply lookup_zip_Some in Hq as [Hq _]. exact (Hlast j Hj Hq).
Qed.

Lemma set_val_constant_term (pb pb' : protoboard) (id e : Z) :
  id <> 0 -> set_val pb id e = Ok pb' -> constant_term pb' = constant_term pb.
Proof.
  intros Hid. unfold set_val.
  destruct (id <=? Z.of_nat (length (pb_values pb))); [| discriminate].
  destruct (Z.eqb_spec id 0); [contradiction |].
  intros Hset. apply bind_inv_Ok in Hset as (vs & _ & Hset).
  injection Hset as <-. reflexivity.
Qed.

Lemma copy_variable_constant_term (ids elements : list Z) (i : nat)
    (pb pb' : protoboard) :
  copy_variable ids elements i pb = Ok pb' ->
  constant_term pb' = constant_term pb.
Proof.
  unfold copy_variable. intros Hcopy.
  apply bind_inv_Ok in Hcopy as (id & _ & Hcopy).
  destruct (Z.eqb_spec id 0) as [_|Hid].
  - injection Hcopy as <-. reflexivity.
  - apply bind_inv_Ok in Hcopy as (e & _ & Hset).
    apply (set_val_constant_term _ _ id e); assumption.
Qed.

Lemma val_zero (pb : protoboard) : val pb 0 = Ok (constant_term pb).
Proof.
  unfold val. destruct (Z.leb_spec 0 (Z.of_nat (length (pb_values pb)))); [| lia].
  reflexivity.
Qed.

(** C6: a pair with wire id 0 is a no-op and no error: the iteration of
    the import on such a pair returns the protoboard as it is, whatever
    the value; whenever an import returns, the value stored at index 0 is
    the one before it; and an import whose table is decodable and whose ids
    are all allocated does return, with the values of the variables that
    the pairs with a nonzero id alone produce. *)
Theorem copy_variables_skips_zero (pb : protoboard) (variables : Variables) :
  (forall elements i,
     variable_ids variables !! i = Some 0 ->
     copy_variable (variable_ids variables) elements i pb = Ok pb)
  /\ (forall pb',
        copy_variables_into_protoboard pb variables = Ok pb' ->
        val pb' 0 = val pb 0)
  /\ (decodable variables ->
      Forall (fun id => 0 <= id <= Z.of_nat (num_variables pb))
        (variable_ids variables) ->
      exists elements pb',
        deserialize_elements (values variables) (length (variable_ids variables))
        = Ok elements
        /\ copy_variables_into_protoboard pb variables = Ok pb'
        /\ val pb' 0 = val pb 0
        /\ pb_values pb'
           = foldl assign (pb_values pb)
               (filter (fun p => p.1 <> 0) (zip (variable_ids variables) elements))).
Proof.
  split; [| split].
  - intros elements i Hid. unfold copy_variable.
    rewrite (bind_Ok _ _ _ (read_Ok _ _ _ Hid)). reflexivity.
  - intros pb' Hcopy. unfold copy_variables_into_protoboard in Hcopy.
    apply bind_inv_Ok in Hcopy as (es & _ & Hloop).
    rewrite !val_zero. f_equal.
    eapply (for_loop_preserves (fun pb0 => constant_term pb0 = constant_term pb));
      [| reflexivity | exact Hloop].
    intros i s s' Hb Hs. rewrite <- Hs.
    eapply copy_variable_constant_term. exact Hb.
  - intros Hdec Hids.
    destruct (deserialize_elements_decodable _ Hdec) as (es & Hes & Hlen).
    exists es. eexists. split; [exact Hes |].
    split; [apply (copy_variables_closed_form _ _ es); assumption |].
    cbn [pb_values]. split; [rewrite !val_zero; reflexivity |].
    symmetry. apply foldl_assign_filter.
Qed.

(** ** [convert_variable_id] *)

Lemma uint64_small (z : Z) : 0 <= z < 2 ^ 64 -> uint64 z = z.
Proof. apply Z.mod_small. Qed.

Lemma convert_variable_id_input (circuit : Circuit) (idx : Z) :
  1 <= idx <= Z.of_nat (length (variable_ids (connections circuit))) ->
  idx < 2 ^ 64 ->
  variable_ids (connections circuit) !! Z.to_nat (idx - 1)
  = Some (convert_variable_id circuit idx).
Proof.
  intros Hidx Hmax. unfold convert_variable_id.
  destruct (Z.eqb_spec idx 0); [lia |].
  rewrite uint64_small by lia.
  destruct (Z.ltb_spec (idx - 1)
              (Z.of_nat (length (variable_ids (connections circuit))))); [| lia].
  destruct (lookup_lt_is_Some_2 (variable_ids (connections circuit))
              (Z.to_nat (idx - 1)) ltac:(lia)) as [id Hid].
  rewrite Hid. reflexivity.
Qed.

Lemma convert_variable_id_local (circuit : Circuit) (idx : Z) :
  Z.of_nat (length (variable_ids (connections circuit))) < idx < 2 ^ 64 ->
  convert_variable_id circuit idx
  = uint64 (free_variable_id circuit
            + (idx - 1 - Z.of_nat (length (variable_ids (connections circuit))))).
Proof.
  intros Hidx. unfold convert_variable_id.
  destruct (Z.eqb_spec idx 0); [lia |].
  rewrite (uint64_small (idx - 1)) by lia.
  destruct (Z.ltb_spec (idx - 1)
              (Z.of_nat (length (variable_ids (connections circuit))))); [lia |].
  rewrite (uint64_small (idx - 1 - _)) by lia. reflexivity.
Qed.

(** C5: [convert_variable_id] has three ranges. Index 0 is wire id 0;
    an index in 1..K, K the number of connection ids, is the connection
    id at that position; an index past K, that is from the boundary
    1 + K on, is [free_id + (index - (1 + K))] as a 64-bit id. *)
Theorem convert_variable_id_ranges (circuit : Circuit) (idx : Z) :
  0 <= idx < 2 ^ 64 ->
  (idx = 0 -> convert_variable_id circuit idx = 0)
  /\ (1 <= idx <= Z.of_nat (length (variable_ids (connections circuit))) ->
      variable_ids (connections circuit) !! Z.to_nat (idx - 1)
      = Some (convert_variable_id circuit idx))
  /\ (1 + Z.of_nat (length (variable_ids (connections circuit))) <= idx ->
      convert_variable_id circuit idx
      = uint64 (free_variable_id circuit
                + (idx - (1 + Z.of_nat (length (variable_ids (connections circuit))))))
      /\ (0 <= free_variable_id circuit ->
          free_variable_id circuit
          + (idx - (1 + Z.of_nat (length (variable_ids (connections circuit)))))
          < 2 ^ 64 ->
          convert_variable_id circuit idx
          = free_variable_id circuit
            + (idx - (1 + Z.of_nat (length (variable_ids (connections circuit))))))).
Proof.
  intros Hidx. split; [| split].
  - intros ->. reflexivity.
  - intros HK. apply convert_variable_id_input; lia.
  - intros Hb. rewrite convert_variable_id_local by lia.
    replace (idx - 1 - Z.of_nat (length (variable_ids (connections circuit))))
      with (idx - (1 + Z.of_nat (length (variable_ids (connections circuit)))))
      by lia.
    split; [reflexivity |]. intros Hfree Hfit. apply uint64_small. lia.
Qed.

(** ** Filling the two vectors of a [Variables] table *)

Lemma write_filled (done : list Z) (k n : nat) (x : Z) :
  length done = k ->
  (k < n)%nat ->
  write (done ++ replicate (n - k) 0) k x
  = Ok ((done ++ [x]) ++ replicate (n - S k) 0).
Proof.
  intros Hdone Hk.
  rewrite write_Ok by (rewrite length_app, length_replicate; lia).
  f_equal. rewrite insert_app_r_alt by lia.
  replace (k - length done)%nat with 0%nat by lia.
  replace (n - k)%nat with (S (n - S k)) by lia.
  cbn [replicate insert list_insert]. rewrite <- app_assoc. reflexivity.
Qed.

Lemma into_le_filled (num : bigint) (done : list Z) (k n : nat) :
  fieldt_size = (bytes_per_limb * r_limbs)%nat ->
  length num = r_limbs ->
  length done = (fieldt_size * k)%nat ->
  (k < n)%nat ->
  into_le num (done ++ replicate (fieldt_size * (n - k)) 0) (fieldt_size * k)
    fieldt_size
  = Ok ((done ++ bigint_bytes num fieldt_size)
        ++ replicate (fieldt_size * (n - S k)) 0).
Proof.
  intros Hfs Hnum Hdone Hk.
  rewrite into_le_window;
    [| assumption | assumption | rewrite length_app, length_replicate; nia].
  f_equal. rewrite take_app_length' by lia.
  rewrite drop_app_ge by lia. rewrite drop_replicate.
  replace (fieldt_size * (n - k) - (fieldt_size * k + fieldt_size - length done))%nat
    with (fieldt_size * (n - S k))%nat by nia.
  rewrite <- app_assoc. reflexivity.
Qed.

Lemma length_concat_chunks {A : Type} (encf : A -> list Z) (items : list A) :
  (forall x, x ∈ items -> length (encf x) = fieldt_size) ->
  length (concat (encf <$> items)) = (fieldt_size * length items)%nat.
Proof.
  induction items as [|x items IH]; intros Henc; cbn [fmap list_fmap concat length].
  - lia.
  - rewrite length_app, Henc by (left; reflexivity).
    rewrite IH by (intros y Hy; apply Henc; right; exact Hy). lia.
Qed.

(** A loop that fills slot [k] of the ids and chunk [k] of the bytes from
    item [k] ends with the ids and the chunks of all items, in order. *)
Lemma fill_loop {A : Type} (items : list A) (idf : nat -> A -> Z)
    (encf : A -> list Z)
    (body : nat -> list Z * list Z -> outcome (list Z * list Z)) :
  (forall x, x ∈ items -> length (encf x) = fieldt_size) ->
  (forall k x done_ids done_bytes,
     items !! k = Some x ->
     length done_ids = k ->
     length done_bytes = (fieldt_size * k)%nat ->
     body k (done_ids ++ replicate (length items - k) 0,
             done_bytes ++ replicate (fieldt_size * (length items - k)) 0)
     = Ok ((done_ids ++ [idf k x]) ++ replicate (length items - S k) 0,
           (done_bytes ++ encf x)
           ++ replicate (fieldt_size * (length items - S k)) 0)) ->
  for_loop 0 (length items) body
    (replicate (length items) 0, replicate (fieldt_size * length items) 0)
  = Ok (imap idf items, concat (encf <$> items)).
Proof.
  intros Henc Hbody.
  destruct (for_loop_inv
    (fun k st =>
       st = (imap idf (take k items) ++ replicate (length items - k) 0,
             concat (encf <$> take k items)
             ++ replicate (fieldt_size * (length items - k)) 0))
    body (length items) 0
    (replicate (length items) 0, replicate (fieldt_size * length items) 0))
    as (st & Hloop & Hst).
  - rewrite take_0, Nat.sub_0_r. reflexivity.
  - intros k st Hk ->.
    destruct (lookup_lt_is_Some_2 items k ltac:(lia)) as [x Hx].
    eexists. split.
    + apply (Hbody k x); [exact Hx | |].
      * rewrite length_imap, length_take. lia.
      * rewrite length_concat_chunks.
        -- rewrite length_take. f_equal. lia.
        -- intros y Hy. apply Henc. apply elem_of_take in Hy as (j & Hj & _).
           apply list_elem_of_lookup. exists j. exact Hj.
    + rewrite (take_S_r _ _ _ Hx), imap_app, fmap_app, concat_app.
      cbn [imap fmap list_fmap concat]. rewrite app_nil_r, length_take.
      replace (Nat.min k (length items) + 0)%nat with k by lia. reflexivity.
  - rewrite Hloop, Hst. cbn [Nat.add]. rewrite take_ge, Nat.sub_diag by lia.
    rewrite Nat.mul_0_r. cbn [replicate]. rewrite !app_nil_r. reflexivity.
Qed.

(** [elements_into_le] concatenates the images of the elements. *)
Lemma elements_into_le_concat (from_elements : list FieldT) :
  fieldt_size = (bytes_per_limb * r_limbs)%nat ->
  elements_into_le from_elements
  = Ok (concat ((fun e => bigint_bytes (as_bigint e) fieldt_size) <$> from_elements)).
Proof.
  intros Hfs. unfold elements_into_le.
  set (encf := fun e : Z => bigint_bytes (as_bigint e) fieldt_size).
  assert (Henc : forall es : list Z,
            length (concat (encf <$> es)) = (fieldt_size * length es)%nat).
  { intros es. apply length_concat_chunks. intros e _. apply length_bigint_bytes. }
  destruct (for_loop_inv
    (fun k to_bytes =>
       to_bytes = concat (encf <$> take k from_elements)
                  ++ replicate (fieldt_size * (length from_elements - k)) 0)
    (fun i to_bytes =>
       e ← read from_elements i;
       into_le (as_bigint e) to_bytes (fieldt_size * i) fieldt_size)
    (length from_elements) 0
    (replicate (fieldt_size * length from_elements) 0)) as (out & Hloop & Hout).
  - rewrite take_0, Nat.sub_0_r. reflexivity.
  - intros k to_bytes Hk ->.
    destruct (lookup_lt_is_Some_2 from_elements k ltac:(lia)) as [e He].
    eexists. split.
    + rewrite (bind_Ok _ _ _ (read_Ok _ _ _ He)).
      apply into_le_filled; [assumption | apply wf_as_bigint | | lia].
      rewrite Henc, length_take. f_equal. lia.
    + rewrite (take_S_r _ _ _ He), fmap_app, concat_app.
      cbn [fmap list_fmap concat]. rewrite app_nil_r. reflexivity.
  - rewrite Hloop, Hout. cbn [Nat.add].
    rewrite take_ge, Nat.sub_diag, Nat.mul_0_r by lia.
    cbn [replicate]. rewrite app_nil_r. reflexivity.
Qed.

(** ** Export of constraints *)

Lemma make_lc_export (circuit : Circuit) (terms : linear_combination) :
  fieldt_size = (bytes_per_limb * r_limbs)%nat ->
  make_lc circuit terms = Ok (export_lc circuit terms).
Proof.
  intros Hfs. unfold make_lc.
  rewrite (fill_loop terms
             (fun _ t => convert_variable_id circuit (index t))
             (fun t => bigint_bytes (as_bigint (coeff t)) fieldt_size)).
  - unfold export_lc.
    rewrite <- (imap_const (fun t => convert_variable_id circuit (index t))).
    reflexivity.
  - intros t _. apply length_bigint_bytes.
  - intros k t done_ids done_bytes Ht Hids Hbytes.
    pose proof (lookup_lt_Some _ _ _ Ht) as Hk.
    rewrite (bind_Ok _ _ _ (read_Ok _ _ _ Ht)).
    rewrite (bind_Ok _ _ _ (write_filled _ _ _ _ Hids Hk)).
    rewrite (bind_Ok _ _ _
               (into_le_filled _ _ _ _ Hfs (proj1 (wf_as_bigint _)) Hbytes Hk)).
    reflexivity.
Qed.

Lemma serialize_constraints_loop_export (circuit : Circuit)
    (lib_constraints : list r1cs_constraint)
    (fb_constraints : list BilinearConstraint) :
  fieldt_size = (bytes_per_limb * r_limbs)%nat ->
  serialize_constraints_loop circuit lib_constraints fb_constraints
  = Ok (fb_constraints ++ (export_constraint circuit <$> lib_constraints)).
Proof.
  intros Hfs. revert fb_constraints.
  induction lib_constraints as [|lib_constraint rest IH]; intros fb_constraints.
  - cbn. rewrite app_nil_r. reflexivity.
  - cbn [serialize_constraints_loop]. rewrite !make_lc_export by assumption.
    cbn. rewrite IH, <- app_assoc. reflexivity.
Qed.

(** C8: the export of the constraints returns one wire constraint per
    constraint of the protoboard, at the same position (so in iteration
    order, duplicates kept); each of its three tables lists the ids of
    the terms and the bytes of their coefficients in the order of the
    terms. *)
Theorem serialize_protoboard_constraints_one_to_one (circuit : Circuit)
    (pb : protoboard) :
  fieldt_size = (bytes_per_limb * r_limbs)%nat ->
  exists fb_constraints,
    serialize_protoboard_constraints circuit pb = Ok fb_constraints
    /\ length fb_constraints = length (constraints pb)
    /\ forall i,
         fb_constraints !! i = export_constraint circuit <$> constraints pb !! i.
Proof.
  intros Hfs. exists (export_constraint circuit <$> constraints pb).
  unfold serialize_protoboard_constraints.
  rewrite serialize_constraints_loop_export by assumption.
  split; [reflexivity |]. split; [apply length_fmap |].
  intros i. apply list_lookup_fmap.
Qed.

(** ** Export of the local assignment *)

Lemma chunk_concat {A : Type} (encf : A -> list Z) (items : list A) (j : nat) (x : A) :
  (forall y, y ∈ items -> length (encf y) = fieldt_size) ->
  items !! j = Some x ->
  chunk (concat (encf <$> items)) fieldt_size j = encf x.
Proof.
  revert j. induction items as [|y items IH]; intros j Henc Hj; [discriminate |].
  cbn [fmap list_fmap concat]. unfold chunk.
  pose proof (Henc y ltac:(left; reflexivity)) as Hy.
  destruct j as [|j].
  - injection Hj as ->. rewrite Nat.mul_0_r. cbn [drop].
    apply take_app_length'. symmetry. exact Hy.
  - cbn [lookup list_lookup] in Hj.
    replace (fieldt_size * S j)%nat with (length (encf y) + fieldt_size * j)%nat
      by lia.
    rewrite drop_app_add. apply (IH j); [| exact Hj].
    intros z Hz. apply Henc. right. exact Hz.
Qed.

(** The variables after the connections and the outputs. *)
Lemma serialize_local_closed_form (circuit : Circuit) (num_outputs : Z)
    (pb : protoboard) :
  fieldt_size = (bytes_per_limb * r_limbs)%nat ->
  0 <= num_outputs ->
  Z.of_nat (length (variable_ids (connections circuit))) + num_outputs
  <= Z.of_nat (num_variables pb) ->
  Z.of_nat (num_variables pb) < 2 ^ 64 ->
  serialize_protoboard_local_assignment circuit num_outputs pb
  = Ok (mkVariables
          (imap (fun j _ => uint64 (free_variable_id circuit + Z.of_nat j))
             (drop (length (variable_ids (connections circuit))
                    + Z.to_nat num_outputs) (pb_values pb)))
          (concat ((fun x => bigint_bytes (as_bigint x) fieldt_size)
                   <$> drop (length (variable_ids (connections circuit))
                             + Z.to_nat num_outputs) (pb_values pb)))).
Proof.
  intros Hfs HL Hshared Hall. unfold serialize_protoboard_local_assignment.
  unfold num_variables in *.
  set (K := length (variable_ids (connections circuit))) in *.
  set (locals := drop (K + Z.to_nat num_outputs) (pb_values pb)).
  rewrite (uint64_small (Z.of_nat K + num_outputs)) by lia.
  rewrite (uint64_small (_ - _)) by lia.
  replace (Z.to_nat (Z.of_nat (length (pb_values pb)) - (Z.of_nat K + num_outputs)))
    with (length locals) by (unfold locals; rewrite length_drop; lia).
  rewrite (fill_loop locals
             (fun j _ => uint64 (free_variable_id circuit + Z.of_nat j))
             (fun x => bigint_bytes (as_bigint x) fieldt_size)).
  - reflexivity.
  - intros x _. apply length_bigint_bytes.
  - intros k x done_ids done_bytes Hx Hids Hbytes.
    pose proof (lookup_lt_Some _ _ _ Hx) as Hk.
    rewrite (bind_Ok _ _ _ (write_filled _ _ _ _ Hids Hk)).
    assert (Hval : val pb (uint64 (1 + (Z.of_nat K + num_outputs) + Z.of_nat k))
                   = Ok x).
    { unfold locals in Hx, Hk. rewrite lookup_drop in Hx. rewrite length_drop in Hk.
      rewrite uint64_small by lia. unfold val.
      destruct (Z.leb_spec (1 + (Z.of_nat K + num_outputs) + Z.of_nat k)
                  (Z.of_nat (length (pb_values pb)))); [| lia].
      destruct (Z.eqb_spec (1 + (Z.of_nat K + num_outputs) + Z.of_nat k) 0); [lia |].
      apply read_Ok. rewrite <- Hx. f_equal. lia. }
    rewrite (bind_Ok _ _ _ Hval).
    rewrite (bind_Ok _ _ _
               (into_le_filled _ _ _ _ Hfs (proj1 (wf_as_bigint _)) Hbytes Hk)).
    reflexivity.
Qed.

Lemma serialize_local_ids (circuit : Circuit) (num_outputs : Z) (pb : protoboard)
    (j : nat) :
  (j < length (drop (length (variable_ids (connections circuit))
                     + Z.to_nat num_outputs) (pb_values pb)))%nat ->
  imap (fun j _ => uint64 (free_variable_id circuit + Z.of_nat j))
    (drop (length (variable_ids (connections circuit)) + Z.to_nat num_outputs)
       (pb_values pb)) !! j
  = Some (uint64 (free_variable_id circuit + Z.of_nat j)).
Proof.
  intros Hj. rewrite list_lookup_imap.
  destruct (lookup_lt_is_Some_2 _ _ Hj) as [x ->]. reflexivity.
Qed.

(** C7: for a protoboard that holds the connections and the outputs,
    the export of the local assignment returns one entry per variable
    after them: entry [j] has the wire id [free_id + j], as a 64-bit id,
    and the bytes of the value at index
    [1 + connection_count + output_count + j] of the full assignment,
    which decode to that value. No entry stands for an earlier index. *)
Theorem serialize_local_assignment_entries (circuit : Circuit) (num_outputs : Z)
    (pb : protoboard) :
  fieldt_size = (bytes_per_limb * r_limbs)%nat ->
  0 <= num_outputs ->
  Z.of_nat (length (variable_ids (connections circuit))) + num_outputs
  <= Z.of_nat (num_variables pb) ->
  Z.of_nat (num_variables pb) < 2 ^ 64 ->
  exists variables,
    serialize_protoboard_local_assignment circuit num_outputs pb = Ok variables
    /\ Z.of_nat (length (variable_ids variables))
       = Z.of_nat (num_variables pb)
         - Z.of_nat (length (variable_ids (connections circuit))) - num_outputs
    /\ length (values variables)
       = (fieldt_size * length (variable_ids variables))%nat
    /\ forall j,
         (j < length (variable_ids variables))%nat ->
         variable_ids variables !! j
         = Some (uint64 (free_variable_id circuit + Z.of_nat j))
         /\ (0 <= free_variable_id circuit ->
             free_variable_id circuit + Z.of_nat j < 2 ^ 64 ->
             variable_ids variables !! j
             = Some (free_variable_id circuit + Z.of_nat j))
         /\ exists x,
              full_assignment pb
                !! (1 + length (variable_ids (connections circuit))
                    + Z.to_nat num_outputs + j)%nat = Some x
              /\ chunk (values variables) fieldt_size j
                 = bigint_bytes (as_bigint x) fieldt_size
              /\ (0 <= x < modulus ->
                  modulus <= 2 ^ (64 * Z.of_nat r_limbs) ->
                  decode_le (chunk (values variables) fieldt_size j) fieldt_size
                  = Ok x).
Proof.
  intros Hfs HL Hshared Hall. eexists.
  split; [apply serialize_local_closed_form; assumption |].
  cbn [variable_ids values]. unfold num_variables in *.
  set (K := length (variable_ids (connections circuit))) in *.
  set (locals := drop (K + Z.to_nat num_outputs) (pb_values pb)).
  assert (Henc : forall y : Z, y ∈ locals ->
                   length (bigint_bytes (as_bigint y) fieldt_size) = fieldt_size).
  { intros y _. apply length_bigint_bytes. }
  rewrite length_imap. split; [unfold locals; rewrite length_drop; lia |].
  split; [apply length_concat_chunks; exact Henc |].
  intros j Hj.
  assert (Hid : imap (fun j _ => uint64 (free_variable_id circuit + Z.of_nat j))
                  locals !! j
                = Some (uint64 (free_variable_id circuit + Z.of_nat j))).
  { apply serialize_local_ids. exact Hj. }
  split; [exact Hid |]. split.
  - intros Hfree Hfit. rewrite Hid, uint64_small by lia. reflexivity.
  - destruct (lookup_lt_is_Some_2 locals j Hj) as [x Hx]. exists x.
    assert (Hchunk : chunk (concat ((fun x => bigint_bytes (as_bigint x) fieldt_size)
                                    <$> locals)) fieldt_size j
                     = bigint_bytes (as_bigint x) fieldt_size).
    { apply (chunk_concat (fun x => bigint_bytes (as_bigint x) fieldt_size));
        assumption. }
    split; [| split; [exact Hchunk |]].
    + unfold full_assignment. cbn [Nat.add lookup list_lookup].
      unfold locals in Hx. rewrite lookup_drop in Hx. exact Hx.
    + intros Hx' Hmod. rewrite Hchunk.
      apply decode_le_bigint_bytes; assumption.
Qed.

(** C10: an index past the K connection ids is given the wire id
    [free_id + (index - 1 - K)], as a 64-bit id; the number of outputs
    plays no role. So with outputs, the output index [index] is given the
    wire id that the export of the local assignment gives to the local
    variable number [index - 1 - K]. *)
Theorem convert_variable_id_no_output_branch (circuit : Circuit) (idx : Z) :
  Z.of_nat (length (variable_ids (connections circuit))) < idx < 2 ^ 64 ->
  convert_variable_id circuit idx
  = uint64 (free_variable_id circuit
            + (idx - 1 - Z.of_nat (length (variable_ids (connections circuit)))))
  /\ forall (num_outputs : Z) (pb : protoboard),
       fieldt_size = (bytes_per_limb * r_limbs)%nat ->
       idx <= Z.of_nat (length (variable_ids (connections circuit))) + num_outputs ->
       Z.of_nat (length (variable_ids (connections circuit))) + num_outputs
       <= Z.of_nat (num_variables pb) ->
       Z.of_nat (num_variables pb) < 2 ^ 64 ->
       idx - 1 - Z.of_nat (length (variable_ids (connections circuit)))
       < Z.of_nat (num_variables pb)
         - Z.of_nat (length (variable_ids (connections circuit))) - num_outputs ->
       exists variables,
         serialize_protoboard_local_assignment circuit num_outputs pb = Ok variables
         /\ variable_ids variables
              !! Z.to_nat (idx - 1
                           - Z.of_nat (length (variable_ids (connections circuit))))
            = Some (convert_variable_id circuit idx).
Proof.
  intros Hidx. rewrite convert_variable_id_local by assumption.
  split; [reflexivity |].
  intros num_outputs pb Hfs Hout Hshared Hall Hlocal. eexists.
  split; [apply serialize_local_closed_form; [assumption | lia | lia | lia] |].
  cbn [variable_ids]. unfold num_variables in *.
  rewrite serialize_local_ids by (rewrite length_drop; lia).
  do 3 f_equal. lia.
Qed.

(** * Further properties of the helpers *)

(** ** Loops that stop *)

(** A loop whose iterations either stop with the fault [f] or keep an
    invariant, and one of whose iterations always stops, stops with [f]. *)
Lemma for_loop_aborts {St : Type} (Inv : St -> Prop)
    (body : nat -> St -> outcome St) (f : fault) (k n lo : nat) (s : St) :
  (lo <= k < lo + n)%nat ->
  Inv s ->
  (forall i s, (lo <= i < lo + n)%nat -> Inv s ->
               body i s = Abort f \/ exists s', body i s = Ok s' /\ Inv s') ->
  (forall s, Inv s -> body k s = Abort f) ->
  for_loop lo n body s = Abort f.
Proof.
  revert lo s. induction n as [|n IH]; intros lo s Hk Hs Hbody Hstop; [lia |].
  cbn [for_loop].
  destruct (Hbody lo s ltac:(lia) Hs) as [Hb|(s1 & Hb & H1)]; rewrite Hb.
  - reflexivity.
  - cbn. apply IH; [| assumption | |assumption].
    + destruct (decide (k = lo)) as [->|]; [| lia].
      rewrite (Hstop s Hs) in Hb. discriminate.
    + intros i s' Hi. apply Hbody. lia.
Qed.

(** ** The element codec on numbers *)

Lemma le_value_app_zeros (bytes : list Z) (n : nat) :
  le_value (bytes ++ replicate n 0) = le_value bytes.
Proof.
  induction bytes as [|b0 bytes IH].
  - induction n as [|n IHn]; [reflexivity |].
    cbn [app replicate] in *. unfold le_value in *. cbn [foldr]. rewrite IHn.
    reflexivity.
  - cbn [app]. unfold le_value in *. cbn [foldr]. rewrite IH. reflexivity.
Qed.

Lemma bigint_value_as_bigint (v : Z) :
  0 <= v < 2 ^ (64 * Z.of_nat r_limbs) -> bigint_value (as_bigint v) = v.
Proof.
  intros Hv. unfold as_bigint. rewrite bigint_value_limbs.
  cbn [Z.of_nat Z.mul]. rewrite Z.shiftr_0_r. apply Z.mod_small. exact Hv.
Qed.

Lemma Forall_is_byte_bigint_bytes (num : bigint) (size : nat) :
  Forall is_byte (bigint_bytes num size).
Proof.
  unfold bigint_bytes. apply Forall_fmap, Forall_forall. intros byte _.
  unfold bigint_byte, uint8, is_byte. cbn beta. apply Z.mod_pos_bound. lia.
Qed.

(** The bytes that [into_le] writes denote the number of the limbs. *)
Lemma le_value_bigint_bytes (num : bigint) :
  wf_bigint num ->
  le_value (bigint_bytes num (bytes_per_limb * r_limbs)) = bigint_value num.
Proof.
  intros Hwf.
  set (image := bigint_bytes num (bytes_per_limb * r_limbs)).
  assert (Hlen : length image = (bytes_per_limb * r_limbs)%nat)
    by apply length_bigint_bytes.
  pose proof (Forall_is_byte_bigint_bytes num (bytes_per_limb * r_limbs)) as Hbytes.
  fold image in Hbytes.
  pose proof (from_le_bigint_bytes num image (bytes_per_limb * r_limbs) Hwf eq_refl
                (fun k Hk => lookup_bigint_bytes num _ k Hk)) as Hnum.
  rewrite from_le_value in Hnum by (assumption || lia).
  rewrite take_ge in Hnum by lia. injection Hnum as Hnum. rewrite <- Hnum.
  symmetry. apply bigint_value_as_bigint.
  pose proof (le_value_bound image Hbytes) as Hv. rewrite Hlen in Hv.
  replace (64 * Z.of_nat r_limbs) with (8 * Z.of_nat (bytes_per_limb * r_limbs))
    by (unfold bytes_per_limb; lia).
  exact Hv.
Qed.

(** X1: [from_le] reads a little-endian number: on a run of at most
    [bytes_per_limb * r_limbs] bytes it returns [r_limbs] limbs, each of 64
    bits, whose number is the sum of the bytes weighted by the powers of
    256. *)
Theorem from_le_little_endian (bytes : list Z) (size : nat) :
  Forall is_byte bytes ->
  (size <= bytes_per_limb * r_limbs)%nat ->
  (size <= length bytes)%nat ->
  exists num,
    from_le bytes size = Ok num
    /\ wf_bigint num
    /\ bigint_value num = le_value (take size bytes).
Proof.
  intros Hbytes Hcap Hlen. exists (as_bigint (le_value (take size bytes))).
  split; [apply from_le_value; assumption |]. split; [apply wf_as_bigint |].
  apply bigint_value_as_bigint.
  pose proof (le_value_bound (take size bytes) (Forall_take _ _ _ Hbytes)) as Hv.
  rewrite length_take, Nat.min_l in Hv by lia. split; [lia |].
  eapply Z.lt_le_trans; [apply Hv |].
  apply Z.pow_le_mono_r; unfold bytes_per_limb in Hcap; lia.
Qed.

(** X2: a truncated element is read as if its missing high bytes were
    zero: [from_le] on [size] bytes returns what it returns on these bytes
    followed by zeros up to the width of the limbs. *)
Theorem from_le_zero_extension (bytes : list Z) (size : nat) :
  Forall is_byte bytes ->
  (size <= bytes_per_limb * r_limbs)%nat ->
  (size <= length bytes)%nat ->
  from_le (take size bytes ++ replicate (bytes_per_limb * r_limbs - size) 0)
    (bytes_per_limb * r_limbs)
  = from_le bytes size.
Proof.
  intros Hbytes Hcap Hlen.
  rewrite (from_le_value bytes size) by assumption.
  rewrite from_le_value.
  - rewrite take_ge by (rewrite length_app, length_take, length_replicate; lia).
    rewrite le_value_app_zeros. reflexivity.
  - apply Forall_app. split; [apply Forall_take; assumption |].
    apply Forall_replicate. unfold is_byte. lia.
  - lia.
  - rewrite length_app, length_take, length_replicate. lia.
Qed.

(** X3: [into_le] at the width of the limbs writes the little-endian
    bytes of the number of the limbs at [off], and nothing else: the
    buffer keeps its length and every byte outside the window keeps its
    value. *)
Theorem into_le_little_endian (num : bigint) (out : list Z) (off size : nat) :
  wf_bigint num ->
  size = (bytes_per_limb * r_limbs)%nat ->
  (off + size <= length out)%nat ->
  exists out',
    into_le num out off size = Ok out'
    /\ length out' = length out
    /\ (forall i, (i < off \/ off + size <= i)%nat -> out' !! i = out !! i)
    /\ Forall is_byte (take size (drop off out'))
    /\ le_value (take size (drop off out')) = bigint_value num.
Proof.
  intros Hwf Hsize Hout. pose proof Hwf as [Hlen _]. eexists.
  split; [apply into_le_window; assumption |].
  pose proof (length_bigint_bytes num size) as Himage.
  assert (Hwindow : take size (drop off (take off out ++ bigint_bytes num size
                                         ++ drop (off + size) out))
                    = bigint_bytes num size).
  { rewrite drop_app_length' by (rewrite length_take; lia).
    apply take_app_length'. symmetry. exact Himage. }
  split; [apply length_window; assumption |]. split; [| split].
  - intros i [Hi|Hi].
    + rewrite lookup_app_l by (rewrite length_take; lia).
      apply lookup_take_lt. exact Hi.
    + rewrite lookup_app_r by (rewrite length_take; lia).
      rewrite lookup_app_r by (rewrite length_take, Himage; lia).
      rewrite lookup_drop, length_take, Himage. f_equal. lia.
  - rewrite Hwindow. apply Forall_is_byte_bigint_bytes.
  - rewrite Hwindow, Hsize. apply le_value_bigint_bytes. exact Hwf.
Qed.


(** ** The bulk codec, there and back *)

(** The images of a nonempty vector of elements decode to the vector. *)
Lemma deserialize_elements_images (elements : list FieldT) :
  fieldt_size = (bytes_per_limb * r_limbs)%nat ->
  modulus <= 2 ^ (64 * Z.of_nat r_limbs) ->
  Forall canonical elements ->
  (0 < length elements)%nat ->
  deserialize_elements
    (concat ((fun e => bigint_bytes (as_bigint e) fieldt_size) <$> elements))
    (length elements)
  = Ok elements.
Proof.
  intros Hfs Hmod Hcan Hn.
  set (encf := fun e : Z => bigint_bytes (as_bigint e) fieldt_size).
  assert (Henc : forall e : Z, e ∈ elements -> length (encf e) = fieldt_size)
    by (intros e _; apply length_bigint_bytes).
  pose proof (length_concat_chunks encf elements Henc) as Hlen.
  unfold deserialize_elements.
  destruct (Nat.eqb_spec (length elements) 0); [lia |].
  rewrite Hlen, Nat.div_mul by assumption.
  destruct (le_into_elements_chunks (concat (encf <$> elements)) (length elements)
              fieldt_size) as (es & Hes & Hlen' & Hchunks); [lia | lia |].
  rewrite Hes. f_equal. apply list_eq. intros i.
  destruct (elements !! i) as [e|] eqn:He.
  - destruct (Hchunks i (lookup_lt_Some _ _ _ He)) as (e' & Hdec & ->).
    rewrite (chunk_concat encf elements i e Henc He) in Hdec.
    unfold encf in Hdec. rewrite decode_le_bigint_bytes in Hdec.
    + injection Hdec as <-. reflexivity.
    + rewrite Forall_lookup in Hcan. apply (Hcan i e He).
    + exact Hmod.
    + exact Hfs.
  - apply lookup_ge_None. apply lookup_ge_None in He. lia.
Qed.

(** X5: [elements_into_le] returns [fieldt_size] bytes per element, in
    the order of the elements: chunk [i] of the result is the
    little-endian image of element [i]. *)
Theorem elements_into_le_chunks (from_elements : list FieldT) :
  fieldt_size = (bytes_per_limb * r_limbs)%nat ->
  exists to_bytes,
    elements_into_le from_elements = Ok to_bytes
    /\ length to_bytes = (fieldt_size * length from_elements)%nat
    /\ Forall is_byte to_bytes
    /\ forall i e,
         from_elements !! i = Some e ->
         0 <= e < 2 ^ (64 * Z.of_nat r_limbs) ->
         le_value (chunk to_bytes fieldt_size i) = e.
Proof.
  intros Hfs. eexists. split; [apply elements_into_le_concat; exact Hfs |].
  set (encf := fun e : Z => bigint_bytes (as_bigint e) fieldt_size).
  assert (Henc : forall e : Z, e ∈ from_elements -> length (encf e) = fieldt_size)
    by (intros e _; apply length_bigint_bytes).
  split; [apply length_concat_chunks; exact Henc |]. split.
  - apply Forall_concat, Forall_fmap, Forall_forall. intros e _.
    apply Forall_is_byte_bigint_bytes.
  - intros i e He Hrange. rewrite (chunk_concat encf from_elements i e Henc He).
    unfold encf. rewrite Hfs, le_value_bigint_bytes by apply wf_as_bigint.
    apply bigint_value_as_bigint. exact Hrange.
Qed.

(** X6: the bulk codec is a round trip on nonempty vectors: the bytes
    that [serialize_elements] hands to the builder for canonical elements
    are read back by [deserialize_elements], with the number of elements,
    as these elements. The empty vector is not: it is serialized to no byte
    and reading it back divides by zero. *)
Theorem serialize_deserialize_elements (from_elements : list FieldT) :
  fieldt_size = (bytes_per_limb * r_limbs)%nat ->
  modulus <= 2 ^ (64 * Z.of_nat r_limbs) ->
  Forall canonical from_elements ->
  (0 < length from_elements)%nat ->
  (serialize_elements from_elements
     ≫= fun bytes => deserialize_elements bytes (length from_elements))
  = Ok from_elements
  /\ (serialize_elements [] ≫= fun bytes => deserialize_elements bytes 0)
     = Abort DivisionByZero.
Proof.
  intros Hfs Hmod Hcan Hn. split; [| reflexivity].
  unfold serialize_elements.
  rewrite (bind_Ok _ _ _ (elements_into_le_concat _ Hfs)).
  apply deserialize_elements_images; assumption.
Qed.

(** X7: [deserialize_incoming_elements] reads one element per connection
    id: from the values that [serialize_elements] made of as many canonical
    elements as the circuit has connections, it returns these elements. A
    circuit without connections makes it divide by zero, whatever its
    values. *)
Theorem deserialize_incoming_elements_connections (circuit : Circuit)
    (elements : list FieldT) :
  fieldt_size = (bytes_per_limb * r_limbs)%nat ->
  modulus <= 2 ^ (64 * Z.of_nat r_limbs) ->
  Forall canonical elements ->
  (variable_ids (connections circuit) <> [] ->
   length elements = length (variable_ids (connections circuit)) ->
   serialize_elements elements = Ok (values (connections circuit)) ->
   deserialize_incoming_elements circuit = Ok elements)
  /\ (variable_ids (connections circuit) = [] ->
      deserialize_incoming_elements circuit = Abort DivisionByZero).
Proof.
  intros Hfs Hmod Hcan. unfold deserialize_incoming_elements. split.
  - intros Hids Hlen Hser. unfold serialize_elements in Hser.
    rewrite elements_into_le_concat in Hser by assumption.
    injection Hser as <-. rewrite <- Hlen.
    apply deserialize_elements_images; try assumption.
    rewrite Hlen. destruct (variable_ids (connections circuit)); [contradiction |].
    cbn. lia.
  - intros ->. reflexivity.
Qed.

(** ** Constraints, there and back *)

Lemma export_lc_values (circuit : Circuit) (terms : linear_combination) :
  values (export_lc circuit terms)
  = concat ((fun e => bigint_bytes (as_bigint e) fieldt_size) <$> (coeff <$> terms)).
Proof. unfold export_lc. cbn [values]. rewrite <- list_fmap_compose. reflexivity. Qed.

Lemma export_lc_ids (circuit : Circuit) (terms : linear_combination) :
  length (variable_ids (export_lc circuit terms)) = length terms.
Proof. unfold export_lc. cbn [variable_ids]. apply length_fmap. Qed.

(** An exported row with terms is imported as its terms, the indices
    converted. *)
Lemma deserialize_lincomb_export (circuit : Circuit) (terms : linear_combination) :
  fieldt_size = (bytes_per_limb * r_limbs)%nat ->
  modulus <= 2 ^ (64 * Z.of_nat r_limbs) ->
  proper_lc terms ->
  deserialize_lincomb (export_lc circuit terms) = Ok (convert_term circuit <$> terms).
Proof.
  intros Hfs Hmod [Hne Hcan].
  rewrite (deserialize_lincomb_terms _ (coeff <$> terms)).
  - f_equal. unfold export_lc. cbn [variable_ids].
    rewrite zip_with_fmap_l, zip_with_fmap_r, zip_with_diag. reflexivity.
  - rewrite export_lc_values, export_lc_ids.
    rewrite <- (length_fmap coeff terms).
    apply deserialize_elements_images; [assumption | assumption | |].
    + apply Forall_fmap. exact Hcan.
    + rewrite length_fmap. destruct terms; [contradiction | cbn; lia].
  - rewrite export_lc_ids. apply length_fmap.
Qed.

(** An exported row with terms is imported without a fault. *)
Lemma deserialize_lincomb_export_returns (circuit : Circuit)
    (terms : linear_combination) :
  fieldt_size = (bytes_per_limb * r_limbs)%nat ->
  terms <> [] ->
  exists lc, deserialize_lincomb (export_lc circuit terms) = Ok lc.
Proof.
  intros Hfs Hne.
  destruct (deserialize_elements_returns (values (export_lc circuit terms))
              (length (variable_ids (export_lc circuit terms))))
    as (es & Hes & Hlen).
  - rewrite export_lc_ids. destruct terms; [contradiction | cbn; lia].
  - rewrite export_lc_values, export_lc_ids.
    rewrite length_concat_chunks by (intros e _; apply length_bigint_bytes).
    rewrite length_fmap, Nat.div_mul; [lia |].
    destruct terms; [contradiction | discriminate].
  - eexists. apply (deserialize_lincomb_terms _ es); assumption.
Qed.

Lemma serialize_protoboard_constraints_lookup (circuit : Circuit) (pb : protoboard)
    (i : nat) (lib_constraint : r1cs_constraint) :
  fieldt_size = (bytes_per_limb * r_limbs)%nat ->
  constraints pb !! i = Some lib_constraint ->
  exists fb_constraints,
    serialize_protoboard_constraints circuit pb = Ok fb_constraints
    /\ fb_constraints !! i = Some (export_constraint circuit lib_constraint).
Proof.
  intros Hfs Hi. eexists. unfold serialize_protoboard_constraints.
  split; [apply serialize_constraints_loop_export; exact Hfs |].
  cbn [app]. rewrite list_lookup_fmap, Hi. reflexivity.
Qed.

(** X8: export then import preserves a constraint: a constraint of the
    protoboard whose three linear combinations have terms, with canonical
    coefficients, is exported to a wire constraint that
    [deserialize_constraint] reads as the same terms in the same order,
    each index replaced by its variable id and each coefficient
    unchanged. *)
Theorem export_import_constraint (circuit : Circuit) (pb : protoboard) (i : nat)
    (lib_constraint : r1cs_constraint) :
  fieldt_size = (bytes_per_limb * r_limbs)%nat ->
  modulus <= 2 ^ (64 * Z.of_nat r_limbs) ->
  constraints pb !! i = Some lib_constraint ->
  proper_lc (a lib_constraint) ->
  proper_lc (b lib_constraint) ->
  proper_lc (c lib_constraint) ->
  exists fb_constraints fb_constraint,
    serialize_protoboard_constraints circuit pb = Ok fb_constraints
    /\ fb_constraints !! i = Some fb_constraint
    /\ deserialize_constraint fb_constraint
       = Ok (mkConstraint
               (convert_term circuit <$> a lib_constraint)
               (convert_term circuit <$> b lib_constraint)
               (convert_term circuit <$> c lib_constraint)).
Proof.
  intros Hfs Hmod Hi Ha Hb Hc.
  destruct (serialize_protoboard_constraints_lookup circuit pb i lib_constraint Hfs Hi)
    as (fb & Hfb & Hlookup).
  exists fb, (export_constraint circuit lib_constraint).
  split; [exact Hfb |]. split; [exact Hlookup |].
  unfold deserialize_constraint, export_constraint.
  cbn [linear_combination_a linear_combination_b linear_combination_c].
  rewrite !deserialize_lincomb_export by assumption. reflexivity.
Qed.

(** X9: a constraint with a linear combination without terms is exported
    without a fault, to a wire constraint that cannot be imported:
    [deserialize_constraint] divides by zero on it. *)
Theorem export_import_empty_lincomb (circuit : Circuit) (pb : protoboard) (i : nat)
    (lib_constraint : r1cs_constraint) :
  fieldt_size = (bytes_per_limb * r_limbs)%nat ->
  constraints pb !! i = Some lib_constraint ->
  a lib_constraint = [] \/ b lib_constraint = [] \/ c lib_constraint = [] ->
  exists fb_constraints fb_constraint,
    serialize_protoboard_constraints circuit pb = Ok fb_constraints
    /\ fb_constraints !! i = Some fb_constraint
    /\ deserialize_constraint fb_constraint = Abort DivisionByZero.
Proof.
  intros Hfs Hi Hempty.
  destruct (serialize_protoboard_constraints_lookup circuit pb i lib_constraint Hfs Hi)
    as (fb & Hfb & Hlookup).
  exists fb, (export_constraint circuit lib_constraint).
  split; [exact Hfb |]. split; [exact Hlookup |].
  unfold deserialize_constraint, export_constraint.
  cbn [linear_combination_a linear_combination_b linear_combination_c].
  destruct (a lib_constraint) as [|ta la] eqn:Ea; [reflexivity |].
  destruct (deserialize_lincomb_export_returns circuit (ta :: la) Hfs ltac:(discriminate))
    as (lc_a & ->).
  destruct (b lib_constraint) as [|tb lb] eqn:Eb; [reflexivity |].
  destruct (deserialize_lincomb_export_returns circuit (tb :: lb) Hfs ltac:(discriminate))
    as (lc_b & ->).
  destruct (c lib_constraint) as [|tc lc] eqn:Ec; [reflexivity |].
  destruct Hempty as [?|[?|?]]; discriminate.
Qed.

(** ** The local assignment, there and back *)

(** X10: export then import carries the local assignment over: the
    table that [serialize_protoboard_local_assignment] makes of a
    protoboard with at least one local variable, all canonical, is
    imported by [copy_variables_into_protoboard] into a protoboard that
    has the variables [free_id], [free_id + 1], ... allocated, and then
    the variable [free_id + j] of that protoboard holds the value of the
    entry [1 + connection_count + output_count + j] of the sender's full
    assignment. *)
Theorem export_import_local_assignment (circuit : Circuit) (num_outputs : Z)
    (pb pb2 : protoboard) :
  fieldt_size = (bytes_per_limb * r_limbs)%nat ->
  modulus <= 2 ^ (64 * Z.of_nat r_limbs) ->
  0 <= num_outputs ->
  Z.of_nat (length (variable_ids (connections circuit))) + num_outputs
  < Z.of_nat (num_variables pb) ->
  Z.of_nat (num_variables pb) < 2 ^ 64 ->
  Forall canonical (pb_values pb) ->
  1 <= free_variable_id circuit ->
  free_variable_id circuit
  + (Z.of_nat (num_variables pb)
     - Z.of_nat (length (variable_ids (connections circuit))) - num_outputs) - 1
  <= Z.of_nat (num_variables pb2) ->
  Z.of_nat (num_variables pb2) < 2 ^ 64 ->
  exists variables pb2',
    serialize_protoboard_local_assignment circuit num_outputs pb = Ok variables
    /\ copy_variables_into_protoboard pb2 variables = Ok pb2'
    /\ forall j x,
         full_assignment pb
           !! (1 + length (variable_ids (connections circuit))
               + Z.to_nat num_outputs + j)%nat = Some x ->
         val pb2' (free_variable_id circuit + Z.of_nat j) = Ok x.
Proof.
  intros Hfs Hmod HL Hshared Hall Hcan Hfree Hroom Hall2.
  unfold num_variables in *.
  set (K := length (variable_ids (connections circuit))) in *.
  set (free_id := free_variable_id circuit) in *.
  pose proof (serialize_local_closed_form circuit num_outputs pb Hfs HL
                ltac:(unfold num_variables; fold K; lia)
                ltac:(unfold num_variables; lia)) as Hexport.
  fold K free_id in Hexport.
  set (locals := drop (K + Z.to_nat num_outputs) (pb_values pb)) in *.
  set (ids := imap (fun (j : nat) (_ : Z) => uint64 (free_id + Z.of_nat j)) locals)
    in *.
  assert (Hn : Z.of_nat (length locals)
               = Z.of_nat (length (pb_values pb)) - Z.of_nat K - num_outputs)
    by (unfold locals; rewrite length_drop; lia).
  assert (Hids : forall j, (j < length locals)%nat ->
                           ids !! j = Some (free_id + Z.of_nat j)).
  { intros j Hj. unfold ids. rewrite list_lookup_imap.
    destruct (lookup_lt_is_Some_2 locals j Hj) as [x ->].
    cbn. rewrite uint64_small by lia. reflexivity. }
  assert (Hidlen : length ids = length locals) by apply length_imap.
  assert (Hes : deserialize_elements
                  (concat ((fun x => bigint_bytes (as_bigint x) fieldt_size) <$> locals))
                  (length ids) = Ok locals).
  { rewrite Hidlen. apply deserialize_elements_images; [assumption | assumption | | lia].
    apply Forall_drop. exact Hcan. }
  eexists. eexists. split; [exact Hexport |]. split.
  { apply (copy_variables_closed_form _ _ locals); cbn [variable_ids values].
    - exact Hes.
    - symmetry. exact Hidlen.
    - apply Forall_lookup. intros j id Hj.
      pose proof (lookup_lt_Some _ _ _ Hj) as Hlt. rewrite Hidlen in Hlt.
      rewrite (Hids j Hlt) in Hj. injection Hj as <-.
      unfold num_variables. lia. }
  intros j x Hx. unfold full_assignment in Hx. cbn [Nat.add lookup list_lookup] in Hx.
  assert (Hlocal : locals !! j = Some x)
    by (unfold locals; rewrite lookup_drop; exact Hx).
  pose proof (lookup_lt_Some _ _ _ Hlocal) as Hj.
  unfold val. cbn [pb_values constant_term variable_ids].
  rewrite length_foldl_assign.
  destruct (Z.leb_spec (free_id + Z.of_nat j) (Z.of_nat (length (pb_values pb2))));
    [| lia].
  destruct (Z.eqb_spec (free_id + Z.of_nat j) 0); [lia |].
  apply read_Ok. apply (foldl_assign_last _ _ j).
  - apply Forall_forall. intros [id e] Hin.
    apply list_elem_of_lookup in Hin as [j' Hj'].
    apply lookup_zip_Some in Hj' as [Hj' _]. cbn [fst].
    pose proof (lookup_lt_Some _ _ _ Hj') as Hlt. rewrite Hidlen in Hlt.
    rewrite (Hids j' Hlt) in Hj'. injection Hj' as <-. lia.
  - apply lookup_zip_Some. split; [apply Hids; exact Hj | exact Hlocal].
  - lia.
  - intros j' [id e] Hlt Hq. cbn [fst].
    apply lookup_zip_Some in Hq as [Hq _].
    pose proof (lookup_lt_Some _ _ _ Hq) as Hlt'. rewrite Hidlen in Hlt'.
    rewrite (Hids j' Hlt') in Hq. injection Hq as <-. lia.
Qed.

(** X11: a protoboard without local variables is exported to a table
    without ids, and no protoboard can import that table:
    [copy_variables_into_protoboard] divides by zero on it. *)
Theorem export_import_no_locals (circuit : Circuit) (num_outputs : Z)
    (pb : protoboard) :
  fieldt_size = (bytes_per_limb * r_limbs)%nat ->
  0 <= num_outputs ->
  Z.of_nat (length (variable_ids (connections circuit))) + num_outputs
  = Z.of_nat (num_variables pb) ->
  Z.of_nat (num_variables pb) < 2 ^ 64 ->
  serialize_protoboard_local_assignment circuit num_outputs pb
  = Ok (mkVariables [] [])
  /\ forall pb2,
       (serialize_protoboard_local_assignment circuit num_outputs pb
          ≫= copy_variables_into_protoboard pb2)
       = Abort DivisionByZero.
Proof.
  intros Hfs HL Hshared Hall.
  assert (Hexport : serialize_protoboard_local_assignment circuit num_outputs pb
                    = Ok (mkVariables [] [])).
  { rewrite serialize_local_closed_form by (assumption || lia).
    unfold num_variables in *. rewrite drop_ge by lia. reflexivity. }
  split; [exact Hexport |]. intros pb2. rewrite Hexport. reflexivity.
Qed.

(** X12: with outputs, the two exports disagree on the local variables:
    the local variable that the export of the local assignment names
    [free_id + j] is named [free_id + output_count + j] in the exported
    constraints. *)
Theorem local_ids_disagree (circuit : Circuit) (num_outputs : Z) (pb : protoboard)
    (j : nat) :
  fieldt_size = (bytes_per_limb * r_limbs)%nat ->
  0 < num_outputs ->
  Z.of_nat (length (variable_ids (connections circuit))) + num_outputs + Z.of_nat j
  < Z.of_nat (num_variables pb) ->
  Z.of_nat (num_variables pb) < 2 ^ 64 ->
  0 <= free_variable_id circuit ->
  free_variable_id circuit + num_outputs + Z.of_nat j < 2 ^ 64 ->
  exists variables,
    serialize_protoboard_local_assignment circuit num_outputs pb = Ok variables
    /\ variable_ids variables !! j = Some (free_variable_id circuit + Z.of_nat j)
    /\ convert_variable_id circuit
         (1 + Z.of_nat (length (variable_ids (connections circuit)))
          + num_outputs + Z.of_nat j)
       = free_variable_id circuit + num_outputs + Z.of_nat j
    /\ variable_ids variables !! j
       <> Some (convert_variable_id circuit
                  (1 + Z.of_nat (length (variable_ids (connections circuit)))
                   + num_outputs + Z.of_nat j)).
Proof.
  intros Hfs HL Hlocal Hall Hfree Hfit. eexists.
  split; [apply serialize_local_closed_form; (assumption || lia) |].
  cbn [variable_ids]. unfold num_variables in *.
  rewrite serialize_local_ids by (rewrite length_drop; lia).
  rewrite convert_variable_id_local by lia.
  rewrite !uint64_small by lia.
  split; [reflexivity |]. split; [lia |].
  intros Heq. injection Heq as Heq. lia.
Qed.

(** ** [convert_variable_id] keeps variables apart *)

(** X13: [convert_variable_id] gives distinct indices distinct ids, when
    the connection ids are distinct, nonzero and below the free id and the
    ids of the local variables fit 64 bits; and only the index 0 is given
    the id 0. *)
Theorem convert_variable_id_injective (circuit : Circuit) (idx1 idx2 : Z) :
  NoDup (variable_ids (connections circuit)) ->
  Forall (fun id => 0 < id < free_variable_id circuit)
         (variable_ids (connections circuit)) ->
  0 < free_variable_id circuit ->
  0 <= idx1 -> free_variable_id circuit + idx1 < 2 ^ 64 ->
  0 <= idx2 -> free_variable_id circuit + idx2 < 2 ^ 64 ->
  (convert_variable_id circuit idx1 = 0 <-> idx1 = 0)
  /\ (convert_variable_id circuit idx1 = convert_variable_id circuit idx2 ->
      idx1 = idx2).
Proof.
  intros Hnodup Hids Hfree H1 Hfit1 H2 Hfit2.
  set (K := Z.of_nat (length (variable_ids (connections circuit)))).
  assert (Hcases : forall idx, 0 <= idx -> free_variable_id circuit + idx < 2 ^ 64 ->
            (idx = 0 /\ convert_variable_id circuit idx = 0)
            \/ (1 <= idx <= K
                /\ variable_ids (connections circuit) !! Z.to_nat (idx - 1)
                   = Some (convert_variable_id circuit idx)
                /\ 0 < convert_variable_id circuit idx < free_variable_id circuit)
            \/ (K < idx
                /\ convert_variable_id circuit idx
                   = free_variable_id circuit + (idx - 1 - K))).
  { intros idx Hidx Hfit. destruct (decide (idx = 0)) as [->|Hnz].
    - left. split; reflexivity.
    - right. destruct (Z.le_gt_cases idx K) as [Hle|Hgt].
      + left. split; [lia |].
        pose proof (convert_variable_id_input circuit idx ltac:(fold K; lia)
                      ltac:(lia)) as Hin.
        split; [exact Hin |]. rewrite Forall_lookup in Hids. apply (Hids _ _ Hin).
      + right. split; [lia |].
        rewrite convert_variable_id_local by (fold K; lia).
        fold K. apply uint64_small. lia. }
  destruct (Hcases idx1 H1 Hfit1) as [[-> E1]|[(R1 & L1 & B1)|(R1 & E1)]];
    destruct (Hcases idx2 H2 Hfit2) as [[-> E2]|[(R2 & L2 & B2)|(R2 & E2)]];
    (split; [split; [intros Hz; lia | intros Hz; lia] |]); intros Heq; try lia.
  rewrite <- Heq in L2.
  pose proof (NoDup_lookup _ _ _ _ Hnodup L1 L2). lia.
Qed.

(** ** What an import leaves alone *)

Lemma set_val_frame (pb pb' : protoboard) (id e v : Z) :
  1 <= id -> id <> v -> 0 <= v ->
  set_val pb id e = Ok pb' ->
  length (pb_values pb') = length (pb_values pb)
  /\ constraints pb' = constraints pb
  /\ val pb' v = val pb v.
Proof.
  intros Hid Hne Hv. unfold set_val.
  destruct (Z.leb_spec id (Z.of_nat (length (pb_values pb)))); [| discriminate].
  destruct (Z.eqb_spec id 0); [lia |].
  intros Hset. apply bind_inv_Ok in Hset as (vs & Hw & Hset).
  injection Hset as <-. unfold write in Hw.
  destruct (Z.to_nat (id - 1) <? length (pb_values pb))%nat; [| discriminate].
  injection Hw as <-. cbn [pb_values constraints].
  split; [apply length_insert |]. split; [reflexivity |].
  unfold val. cbn [pb_values constant_term]. rewrite length_insert.
  destruct (v <=? Z.of_nat (length (pb_values pb))); [| reflexivity].
  destruct (Z.eqb_spec v 0); [reflexivity |].
  unfold read. rewrite list_lookup_insert_ne by lia. reflexivity.
Qed.

(** X14: an import that returns has allocated no variable and changed no
    constraint, and every variable whose id is not in the message reads
    as before. *)
Theorem copy_variables_frame (pb pb' : protoboard) (variables : Variables) :
  Forall (fun id => 0 <= id) (variable_ids variables) ->
  copy_variables_into_protoboard pb variables = Ok pb' ->
  num_variables pb' = num_variables pb
  /\ constraints pb' = constraints pb
  /\ forall v, 0 <= v -> v ∉ variable_ids variables -> val pb' v = val pb v.
Proof.
  intros Hids Hcopy. unfold copy_variables_into_protoboard in Hcopy.
  apply bind_inv_Ok in Hcopy as (es & _ & Hloop).
  assert (Hstep : forall (P : protoboard -> Prop),
            P pb ->
            (forall pb0 pb1 id e, id ∈ variable_ids variables -> 1 <= id ->
               set_val pb0 id e = Ok pb1 -> P pb0 -> P pb1) ->
            P pb').
  { intros P HP Hset.
    eapply (for_loop_preserves P); [| exact HP | exact Hloop].
    intros i pb0 pb1 Hb Hpb0. unfold copy_variable in Hb.
    apply bind_inv_Ok in Hb as (id & Hid & Hb). unfold read in Hid.
    destruct (variable_ids variables !! i) as [id'|] eqn:Hi; [| discriminate].
    injection Hid as ->.
    destruct (Z.eqb_spec id 0) as [_|Hnz]; [injection Hb as <-; exact Hpb0 |].
    apply bind_inv_Ok in Hb as (e & _ & Hb).
    apply (Hset pb0 pb1 id e); [| | exact Hb | exact Hpb0].
    - apply list_elem_of_lookup. exists i. exact Hi.
    - rewrite Forall_lookup in Hids. specialize (Hids i id Hi). cbn beta in Hids. lia. }
  unfold num_variables. split; [| split].
  - apply (Hstep (fun pb0 => length (pb_values pb0) = length (pb_values pb)));
      [reflexivity |].
    intros pb0 pb1 id e _ Hid Hset <-.
    apply (set_val_frame pb0 pb1 id e (id + 1)); (lia || assumption).
  - apply (Hstep (fun pb0 => constraints pb0 = constraints pb)); [reflexivity |].
    intros pb0 pb1 id e _ Hid Hset <-.
    apply (set_val_frame pb0 pb1 id e (id + 1)); (lia || assumption).
  - intros v Hv Hnotin.
    apply (Hstep (fun pb0 => val pb0 v = val pb v)); [reflexivity |].
    intros pb0 pb1 id e Hin Hid Hset <-.
    apply (set_val_frame pb0 pb1 id e v); try (lia || assumption).
    intros ->. contradiction.
Qed.

(** X15: an import with an id that is not allocated on the protoboard
    stops at the assertion of [val]: no protoboard is returned, also when
    the other pairs are fine. *)
Theorem copy_variables_unallocated (pb : protoboard) (variables : Variables)
    (k : nat) (id : Z) :
  decodable variables ->
  Forall (fun id => 0 <= id) (variable_ids variables) ->
  variable_ids variables !! k = Some id ->
  Z.of_nat (num_variables pb) < id ->
  copy_variables_into_protoboard pb variables = Abort AssertionFailed.
Proof.
  intros Hdec Hids Hk Hid. unfold copy_variables_into_protoboard.
  destruct (deserialize_elements_decodable _ Hdec) as (es & Hes & Hlen).
  rewrite (bind_Ok _ _ _ Hes). unfold num_variables in Hid.
  apply (for_loop_aborts
           (fun pb0 => length (pb_values pb0) = length (pb_values pb)) _ _ k).
  - pose proof (lookup_lt_Some _ _ _ Hk). lia.
  - reflexivity.
  - intros i pb0 Hi Hpb0. unfold copy_variable.
    destruct (lookup_lt_is_Some_2 (variable_ids variables) i ltac:(lia)) as [id' Hid'].
    destruct (lookup_lt_is_Some_2 es i ltac:(lia)) as [e He].
    rewrite (bind_Ok _ _ _ (read_Ok _ _ _ Hid')).
    destruct (Z.eqb_spec id' 0) as [_|Hnz]; [right; eexists; split; [reflexivity | exact Hpb0] |].
    rewrite (bind_Ok _ _ _ (read_Ok _ _ _ He)). unfold set_val.
    destruct (Z.leb_spec id' (Z.of_nat (length (pb_values pb0)))); [| left; reflexivity].
    destruct (Z.eqb_spec id' 0); [contradiction |].
    rewrite Forall_lookup in Hids. specialize (Hids i id' Hid'). cbn beta in Hids.
    rewrite write_Ok by lia. right. eexists. split; [reflexivity |].
    cbn [pb_values]. rewrite length_insert. exact Hpb0.
  - intros pb0 Hpb0. unfold copy_variable.
    rewrite (bind_Ok _ _ _ (read_Ok _ _ _ Hk)).
    destruct (Z.eqb_spec id 0); [lia |].
    destruct (lookup_lt_is_Some_2 es k) as [e He].
    { rewrite Hlen. eapply lookup_lt_Some. exact Hk. }
    rewrite (bind_Ok _ _ _ (read_Ok _ _ _ He)). unfold set_val.
    destruct (Z.leb_spec id (Z.of_nat (length (pb_values pb0)))); [lia | reflexivity].
Qed.

(** ** A buffer shorter than the count *)

Lemma bigint_value_zero (n : nat) : bigint_value (replicate n 0) = 0.
Proof.
  induction n as [|n IH]; [reflexivity |].
  cbn [replicate]. unfold bigint_value in *. cbn [foldr]. rewrite IH. reflexivity.
Qed.

Lemma decode_le_no_bytes (bytes : list Z) : decode_le bytes 0 = Ok 0.
Proof.
  unfold decode_le, from_le. cbn [Nat.leb for_loop]. cbn.
  unfold FieldT_of_bigint, bigint_zero. rewrite bigint_value_zero, Zmod_0_l.
  reflexivity.
Qed.

(** X16: fewer bytes than elements is no error: the element size is
    then zero and [deserialize_elements] returns the asked number of
    elements, all zero, whatever the bytes are. *)
Theorem deserialize_elements_short_buffer (from_bytes : list Z) (num_elements : nat) :
  (length from_bytes < num_elements)%nat ->
  deserialize_elements from_bytes num_elements = Ok (replicate num_elements 0).
Proof.
  intros Hshort. unfold deserialize_elements.
  destruct (Nat.eqb_spec num_elements 0); [lia |].
  rewrite Nat.div_small by assumption.
  destruct (le_into_elements_chunks from_bytes num_elements 0)
    as (es & Hes & Hlen & Hchunks); [lia | lia |].
  rewrite Hes. f_equal. apply list_eq. intros i.
  destruct (decide (i < num_elements)%nat) as [Hi|Hi].
  - destruct (Hchunks i Hi) as (e & He & ->).
    rewrite decode_le_no_bytes in He. injection He as <-.
    symmetry. apply lookup_replicate_2. exact Hi.
  - rewrite lookup_ge_None_2 by lia. symmetry. apply lookup_ge_None.
    rewrite length_replicate. lia.
Qed.

(** ** The dense numbering *)

(** X17: for a circuit whose connection ids are 1, ..., K in this order
    and whose free id is K + 1, [convert_variable_id] is the identity: the
    exported ids are the indices of the protoboard. *)
Theorem convert_variable_id_dense (circuit : Circuit) (idx : Z) :
  variable_ids (connections circuit)
  = Z.of_nat <$> seq 1 (length (variable_ids (connections circuit))) ->
  free_variable_id circuit
  = Z.of_nat (length (variable_ids (connections circuit))) + 1 ->
  0 <= idx < 2 ^ 64 ->
  convert_variable_id circuit idx = idx.
Proof.
  intros Hids Hfree Hidx.
  set (K := length (variable_ids (connections circuit))) in *.
  destruct (decide (idx = 0)) as [->|Hnz]; [reflexivity |].
  destruct (Z.le_gt_cases idx (Z.of_nat K)) as [Hle|Hgt].
  - pose proof (convert_variable_id_input circuit idx ltac:(fold K; lia) ltac:(lia))
      as Hin.
    rewrite Hids, list_lookup_fmap, lookup_seq_lt in Hin by lia.
    injection Hin as <-. lia.
  - rewrite convert_variable_id_local by (fold K; lia).
    fold K. rewrite Hfree.
    replace (Z.of_nat K + 1 + (idx - 1 - Z.of_nat K)) with idx by lia.
    apply uint64_small. lia.
Qed.

End Codec.


(** * The helpers at the field of alt_bn128 *)

Ltac forall_list :=
  repeat (apply List.Forall_cons; [cbn; lia |]); apply List.Forall_nil.

Ltac decodable_list :=
  unfold decodable; split; vm_compute; lia.

(** ** Sanity checks of the embedding *)

Example from_le_two_limbs :
  from_le 4 [1; 2; 0; 0; 0; 0; 0; 0; 3] 9 = Ok [513; 3; 0; 0].
Proof. reflexivity. Qed.

Example into_le_at_offset :
  into_le 1 [513] (replicate 10 7) 1 8 = Ok [7; 1; 2; 0; 0; 0; 0; 0; 0; 7].
Proof. reflexivity. Qed.

Example elements_into_le_two :
  elements_into_le 1 8 [513; 3] = Ok [1; 2; 0; 0; 0; 0; 0; 0; 3; 0; 0; 0; 0; 0; 0; 0].
Proof. reflexivity. Qed.

(** The local-assignment example of the spec: one entry, wire id 100,
    value 42. *)
Example local_assignment_example :
  serialize_protoboard_local_assignment bn128_limbs bn128_size circuit_5_9 1 pb_local_42
  = Ok (mkVariables [100] (element_bytes 42)).
Proof. reflexivity. Qed.

(** Inputs are exported under their connection ids, the fourth variable
    under the id 101: the output branch is absent. *)
Example export_constraints_example :
  serialize_protoboard_constraints bn128_limbs bn128_size circuit_5_9 pb_two_constraints
  = Ok [mkBilinearConstraint
          (mkVariables [5] (element_bytes 3))
          (mkVariables [9] (element_bytes 7))
          (mkVariables [101] (element_bytes 5));
        mkBilinearConstraint
          (mkVariables [5] (element_bytes 3))
          (mkVariables [9] (element_bytes 7))
          (mkVariables [101] (element_bytes 5))].
Proof. reflexivity. Qed.

(** A linear combination without terms stops the import: the element
    size is a quotient by the number of terms. *)
Example deserialize_lincomb_empty :
  deserialize_lincomb bn128_limbs bn128_r (mkVariables [] []) = Abort DivisionByZero.
Proof. reflexivity. Qed.

(** Without the test on the id, an assignment to variable 0 would
    overwrite the constant term. *)
Example set_val_zero :
  set_val pb_local_42 0 7 = Ok (mkProtoboard 7 [11; 12; 13; 42] []).
Proof. reflexivity. Qed.

(** ** The claims at alt_bn128 *)

(** The round trip at 32 bytes. *)
Lemma decode_encode_limb_width_witness :
  (encode_le bn128_limbs 42 32 ≫= fun bytes => decode_le bn128_limbs bn128_r bytes 32)
  = Ok 42.
Proof.
  apply decode_encode_limb_width;
    [unfold bn128_r; lia | vm_compute; discriminate | reflexivity].
Defined.

(** C4 fails at 33 bytes, a width above the 32 bytes of an element:
    [into_le] reads a fifth limb, and whatever bytes it had written, the
    assertion of [from_le] rejects the width. *)
Lemma decode_encode_wider_fails :
  (bn128_size <= 33)%nat
  /\ (encode_le bn128_limbs 1 33 ≫= fun bytes => decode_le bn128_limbs bn128_r bytes 33)
     <> Ok 1
  /\ forall bytes, decode_le bn128_limbs bn128_r bytes 33 = Abort AssertionFailed.
Proof.
  split; [unfold bn128_size; lia |]. split.
  - apply decode_encode_other_width. discriminate.
  - intros bytes. unfold decode_le. rewrite from_le_assert; [reflexivity |].
    unfold bytes_per_limb, bn128_limbs. lia.
Qed.

(** Five bytes for two elements. *)
Lemma deserialize_elements_inexact_witness :
  exists elements,
    deserialize_elements bn128_limbs bn128_r [1; 0; 2; 0; 9] 2 = Ok elements
    /\ length elements = 2%nat.
Proof.
  destruct (deserialize_elements_inexact bn128_limbs bn128_r [1; 0; 2; 0; 9] 2)
    as (_ & Hes & _); [lia | vm_compute; lia | exact Hes].
Defined.

(** C3 fails on five bytes for two elements: the division is not exact
    and the two elements are returned, the fifth byte dropped. *)
Lemma deserialize_elements_no_malformed_input :
  (length [1; 0; 2; 0; 9] mod 2 <> 0)%nat
  /\ deserialize_elements bn128_limbs bn128_r [1; 0; 2; 0; 9] 2 = Ok [1; 2].
Proof. split; [discriminate | reflexivity]. Qed.

Lemma deserialize_elements_chunks_witness :
  exists elements,
    deserialize_elements bn128_limbs bn128_r [1; 0; 2; 0; 9] 2 = Ok elements
    /\ length elements = 2%nat
    /\ forall i, (i < 2)%nat ->
         exists e,
           decode_le bn128_limbs bn128_r (chunk [1; 0; 2; 0; 9] 2 i) 2 = Ok e
           /\ elements !! i = Some e.
Proof.
  destruct (deserialize_elements_chunks bn128_limbs bn128_r [1; 0; 2; 0; 9] 2)
    as (Hes & _); [lia | vm_compute; lia | exact Hes].
Defined.

(** C9 fails on one element of 33 bytes: no element is returned, the
    assertion of [from_le] stops the decoder. *)
Lemma deserialize_elements_wide_element :
  (0 < 1)%nat
  /\ deserialize_elements bn128_limbs bn128_r (replicate 33 1) 1
     = Abort AssertionFailed.
Proof.
  split; [lia |]. apply deserialize_elements_assert; [lia |].
  vm_compute. lia.
Qed.

Lemma deserialize_constraint_terms_witness :
  exists elements_a elements_b elements_c,
    deserialize_constraint bn128_limbs bn128_r
      (mkBilinearConstraint
         (mkVariables [5; 5] (element_bytes 3 ++ element_bytes 4))
         (mkVariables [9] (element_bytes 7))
         (mkVariables [101] (element_bytes 5)))
    = Ok (mkConstraint
            (zip_with mkTerm [5; 5] elements_a)
            (zip_with mkTerm [9] elements_b)
            (zip_with mkTerm [101] elements_c)).
Proof.
  destruct (deserialize_constraint_terms bn128_limbs bn128_r
              (mkBilinearConstraint
                 (mkVariables [5; 5] (element_bytes 3 ++ element_bytes 4))
                 (mkVariables [9] (element_bytes 7))
                 (mkVariables [101] (element_bytes 5))))
    as (ea & eb & ec & _ & _ & _ & _ & H);
    [decodable_list | decodable_list | decodable_list |].
  exists ea, eb, ec. exact H.
Defined.

(** C1 fails on the wire id 3 for a recipient with the connections 5 and 9
    and the free id 100: the imported term has the index 3, the
    translation of the spec gives 100. *)
Lemma deserialize_lincomb_no_translation :
  deserialize_lincomb bn128_limbs bn128_r (mkVariables [3] (element_bytes 7))
  = Ok [mkTerm 3 7]
  /\ spec_import_lincomb bn128_limbs bn128_r [5; 9] 100
       (mkVariables [3] (element_bytes 7))
     = Ok [mkTerm 100 7]
  /\ deserialize_lincomb bn128_limbs bn128_r (mkVariables [3] (element_bytes 7))
     <> spec_import_lincomb bn128_limbs bn128_r [5; 9] 100
          (mkVariables [3] (element_bytes 7)).
Proof. split; [reflexivity |]. split; [reflexivity |]. vm_compute. discriminate. Qed.

Lemma copy_variables_last_write_witness :
  exists pb',
    copy_variables_into_protoboard bn128_limbs bn128_r pb_local_42
      (mkVariables [4; 0; 4] [7; 8; 9]) = Ok pb'
    /\ val pb' 4 = Ok 9.
Proof.
  destruct (copy_variables_last_write bn128_limbs bn128_r pb_local_42
              (mkVariables [4; 0; 4] [7; 8; 9]))
    as (es & pb' & Hes & Hcopy & _ & Hlast); [decodable_list | forall_list |].
  exists pb'. split; [exact Hcopy |].
  apply (Hlast 2%nat 4 9); [reflexivity | | lia |].
  - vm_compute in Hes. injection Hes as <-. reflexivity.
  - intros j Hj. rewrite lookup_ge_None_2 by (cbn; lia). discriminate.
Defined.

(** C2 fails on the same pair: the value 7 is written at the index 3, the
    translation of the spec writes it at the index 100. *)
Lemma copy_variables_no_translation :
  (copy_variables_into_protoboard bn128_limbs bn128_r pb_hundred
     (mkVariables [3] (element_bytes 7)) ≫= fun pb' => val pb' 3) = Ok 7
  /\ (spec_import_assignment bn128_limbs bn128_r [5; 9] 100 pb_hundred
        (mkVariables [3] (element_bytes 7)) ≫= fun pb' => val pb' 3) = Ok 0
  /\ copy_variables_into_protoboard bn128_limbs bn128_r pb_hundred
       (mkVariables [3] (element_bytes 7))
     <> spec_import_assignment bn128_limbs bn128_r [5; 9] 100 pb_hundred
          (mkVariables [3] (element_bytes 7)).
Proof. split; [reflexivity |]. split; [reflexivity |]. vm_compute. discriminate. Qed.

Lemma copy_variables_skips_zero_witness :
  exists pb',
    copy_variables_into_protoboard bn128_limbs bn128_r pb_local_42
      (mkVariables [4; 0; 4] [7; 8; 9]) = Ok pb'
    /\ val pb' 0 = val pb_local_42 0.
Proof.
  destruct (copy_variables_skips_zero bn128_limbs bn128_r pb_local_42
              (mkVariables [4; 0; 4] [7; 8; 9])) as (_ & _ & Hreturns).
  destruct Hreturns as (es & pb' & _ & Hcopy & Hzero & _);
    [decodable_list | forall_list |].
  exists pb'. split; assumption.
Defined.

Lemma convert_variable_id_ranges_witness :
  convert_variable_id circuit_5_9 0 = 0
  /\ convert_variable_id circuit_5_9 2 = 9
  /\ convert_variable_id circuit_5_9 4 = 101.
Proof.
  split; [| split].
  - apply (convert_variable_id_ranges circuit_5_9 0); lia.
  - destruct (convert_variable_id_ranges circuit_5_9 2) as (_ & Hin & _); [lia |].
    specialize (Hin ltac:(cbn; lia)). apply (f_equal (default 0)) in Hin.
    symmetry. exact Hin.
  - destruct (convert_variable_id_ranges circuit_5_9 4) as (_ & _ & Hloc); [lia |].
    destruct (Hloc ltac:(cbn; lia)) as [_ Hfit].
    rewrite Hfit by (cbn; lia). reflexivity.
Defined.

Lemma serialize_protoboard_constraints_one_to_one_witness :
  exists fb_constraints,
    serialize_protoboard_constraints bn128_limbs bn128_size circuit_5_9
      pb_two_constraints = Ok fb_constraints
    /\ length fb_constraints = 2%nat.
Proof.
  destruct (serialize_protoboard_constraints_one_to_one bn128_limbs bn128_size
              circuit_5_9 pb_two_constraints)
    as (fb & Hfb & Hlen & _); [reflexivity |].
  exists fb. split; assumption.
Defined.

Lemma serialize_local_assignment_entries_witness :
  exists variables,
    serialize_protoboard_local_assignment bn128_limbs bn128_size circuit_5_9 1
      pb_local_42 = Ok variables
    /\ Z.of_nat (length (variable_ids variables)) = 1.
Proof.
  destruct (serialize_local_assignment_entries bn128_limbs bn128_size bn128_r
              circuit_5_9 1 pb_local_42)
    as (vars & Hvars & Hlen & _); [reflexivity | lia | cbn; lia | cbn; lia |].
  exists vars. split; assumption.
Defined.

Lemma convert_variable_id_no_output_branch_witness :
  convert_variable_id circuit_5_9 3 = uint64 (100 + (3 - 1 - 2))
  /\ exists variables,
       serialize_protoboard_local_assignment bn128_limbs bn128_size circuit_5_9 1
         pb_local_42 = Ok variables
       /\ variable_ids variables !! 0%nat = Some (convert_variable_id circuit_5_9 3).
Proof.
  destruct (convert_variable_id_no_output_branch bn128_limbs bn128_size circuit_5_9 3)
    as [Hid Hout]; [cbn; lia |].
  split; [exact Hid |].
  apply (Hout 1 pb_local_42); [reflexivity | cbn; lia | cbn; lia | cbn; lia | cbn; lia].
Defined.

(** ** The further properties at alt_bn128 *)

Ltac forall_unfold :=
  repeat (apply List.Forall_cons;
          [unfold is_byte, canonical, bn128_r; cbn; lia |]);
  apply List.Forall_nil.

Ltac proper_list :=
  unfold proper_lc; split; [discriminate | forall_unfold].

Lemma from_le_little_endian_witness :
  exists num,
    from_le bn128_limbs [1; 2; 3] 3 = Ok num
    /\ bigint_value num = 1 + 2 * 256 + 3 * 65536.
Proof.
  destruct (from_le_little_endian bn128_limbs [1; 2; 3] 3) as (num & Hnum & _ & Hv);
    [forall_unfold | vm_compute; lia | cbn; lia |].
  exists num. split; [exact Hnum | exact Hv].
Defined.

Lemma from_le_zero_extension_witness :
  from_le bn128_limbs
    (take 3 [1; 2; 3; 9] ++ replicate (bytes_per_limb * bn128_limbs - 3) 0)
    (bytes_per_limb * bn128_limbs)
  = from_le bn128_limbs [1; 2; 3; 9] 3.
Proof.
  apply from_le_zero_extension; [forall_unfold | vm_compute; lia | cbn; lia].
Defined.

Lemma into_le_little_endian_witness :
  exists out',
    into_le 1 [513] (replicate 10 7) 1 8 = Ok out'
    /\ length out' = 10%nat
    /\ le_value (take 8 (drop 1 out')) = 513.
Proof.
  destruct (into_le_little_endian 1 [513] (replicate 10 7) 1 8)
    as (out' & Hinto & Hlen & _ & _ & Hv);
    [split; [reflexivity | forall_unfold] | reflexivity | cbn; lia |].
  exists out'. split; [exact Hinto |]. split; [exact Hlen | exact Hv].
Defined.


Lemma elements_into_le_chunks_witness :
  exists to_bytes,
    elements_into_le bn128_limbs bn128_size [7; 9] = Ok to_bytes
    /\ length to_bytes = 64%nat.
Proof.
  destruct (elements_into_le_chunks bn128_limbs bn128_size [7; 9])
    as (to_bytes & Hbytes & Hlen & _); [reflexivity |].
  exists to_bytes. split; [exact Hbytes | exact Hlen].
Defined.

Lemma serialize_deserialize_elements_witness :
  (serialize_elements bn128_limbs bn128_size [7; 9]
     ≫= fun bytes => deserialize_elements bn128_limbs bn128_r bytes 2)
  = Ok [7; 9].
Proof.
  apply (serialize_deserialize_elements bn128_limbs bn128_size bn128_r [7; 9]);
    [reflexivity | vm_compute; discriminate | forall_unfold | cbn; lia].
Defined.

Lemma deserialize_incoming_elements_connections_witness :
  deserialize_incoming_elements bn128_limbs bn128_r circuit_incoming = Ok [7; 9].
Proof.
  destruct (deserialize_incoming_elements_connections bn128_limbs bn128_size bn128_r
              circuit_incoming [7; 9]) as [Hsome _];
    [reflexivity | vm_compute; discriminate | forall_unfold |].
  apply Hsome; [discriminate | reflexivity | reflexivity].
Defined.

Lemma export_import_constraint_witness :
  exists fb_constraints fb_constraint,
    serialize_protoboard_constraints bn128_limbs bn128_size circuit_5_9
      pb_two_constraints = Ok fb_constraints
    /\ fb_constraints !! 1%nat = Some fb_constraint
    /\ deserialize_constraint bn128_limbs bn128_r fb_constraint
       = Ok (mkConstraint [mkTerm 5 3] [mkTerm 9 7] [mkTerm 101 5]).
Proof.
  apply (export_import_constraint bn128_limbs bn128_size bn128_r circuit_5_9
           pb_two_constraints 1
           (mkConstraint [mkTerm 1 3] [mkTerm 2 7] [mkTerm 4 5]));
    [reflexivity | vm_compute; discriminate | reflexivity
    | proper_list | proper_list | proper_list].
Defined.

Lemma export_import_empty_lincomb_witness :
  exists fb_constraints fb_constraint,
    serialize_protoboard_constraints bn128_limbs bn128_size circuit_5_9
      pb_empty_lincomb = Ok fb_constraints
    /\ fb_constraints !! 0%nat = Some fb_constraint
    /\ deserialize_constraint bn128_limbs bn128_r fb_constraint
       = Abort DivisionByZero.
Proof.
  apply (export_import_empty_lincomb bn128_limbs bn128_size bn128_r circuit_5_9
           pb_empty_lincomb 0 (mkConstraint [mkTerm 1 3] [mkTerm 2 7] []));
    [reflexivity | reflexivity | right; right; reflexivity].
Defined.

Lemma export_import_local_assignment_witness :
  exists variables pb2',
    serialize_protoboard_local_assignment bn128_limbs bn128_size circuit_5_9 1
      pb_local_42 = Ok variables
    /\ copy_variables_into_protoboard bn128_limbs bn128_r pb_hundred variables
       = Ok pb2'
    /\ val pb2' 100 = Ok 42.
Proof.
  destruct (export_import_local_assignment bn128_limbs bn128_size bn128_r
              circuit_5_9 1 pb_local_42 pb_hundred)
    as (variables & pb2' & Hexport & Himport & Hval);
    [reflexivity | vm_compute; discriminate | lia | cbn; lia | cbn; lia
    | forall_unfold | cbn; lia | cbn; lia | cbn; lia |].
  exists variables, pb2'. split; [exact Hexport |]. split; [exact Himport |].
  apply (Hval 0%nat 42). reflexivity.
Defined.

Lemma export_import_no_locals_witness :
  serialize_protoboard_local_assignment bn128_limbs bn128_size circuit_5_9 2
    pb_local_42 = Ok (mkVariables [] [])
  /\ (serialize_protoboard_local_assignment bn128_limbs bn128_size circuit_5_9 2
        pb_local_42
        ≫= copy_variables_into_protoboard bn128_limbs bn128_r pb_hundred)
     = Abort DivisionByZero.
Proof.
  destruct (export_import_no_locals bn128_limbs bn128_size bn128_r circuit_5_9 2
              pb_local_42) as [Hexport Himport];
    [reflexivity | lia | reflexivity | cbn; lia |].
  split; [exact Hexport | apply Himport].
Defined.

Lemma local_ids_disagree_witness :
  exists variables,
    serialize_protoboard_local_assignment bn128_limbs bn128_size circuit_5_9 1
      pb_local_42 = Ok variables
    /\ variable_ids variables !! 0%nat = Some 100
    /\ convert_variable_id circuit_5_9 4 = 101.
Proof.
  destruct (local_ids_disagree bn128_limbs bn128_size circuit_5_9 1 pb_local_42 0)
    as (variables & Hexport & Hid & Hconvert & _);
    [reflexivity | lia | cbn; lia | cbn; lia | cbn; lia | cbn; lia |].
  exists variables. split; [exact Hexport |]. split; [exact Hid | exact Hconvert].
Defined.

Lemma convert_variable_id_injective_witness :
  (convert_variable_id circuit_5_9 1 = 0 <-> 1 = 0)
  /\ (convert_variable_id circuit_5_9 1 = convert_variable_id circuit_5_9 3 -> 1 = 3).
Proof.
  apply (convert_variable_id_injective circuit_5_9 1 3);
    [ apply NoDup_cons; split;
        [intros Hin; apply list_elem_of_singleton in Hin; discriminate
        | apply NoDup_singleton]
    | forall_list | cbn; lia | lia | cbn; lia | lia | cbn; lia ].
Defined.

Lemma copy_variables_frame_witness :
  val (mkProtoboard 1 [11; 12; 13; 9] []) 2 = val pb_local_42 2.
Proof.
  destruct (copy_variables_frame bn128_limbs bn128_r pb_local_42
              (mkProtoboard 1 [11; 12; 13; 9] []) (mkVariables [4; 0; 4] [7; 8; 9]))
    as (_ & _ & Hframe); [forall_list | reflexivity |].
  apply Hframe; [lia |].
  cbn [variable_ids]. intros Hin.
  repeat (apply elem_of_cons in Hin as [Hin|Hin]; [discriminate |]).
  exact (not_elem_of_nil _ Hin).
Defined.

Lemma copy_variables_unallocated_witness :
  copy_variables_into_protoboard bn128_limbs bn128_r pb_local_42
    (mkVariables [4; 9] [7; 8]) = Abort AssertionFailed.
Proof.
  apply (copy_variables_unallocated bn128_limbs bn128_r pb_local_42
           (mkVariables [4; 9] [7; 8]) 1 9);
    [decodable_list | forall_list | reflexivity | cbn; lia].
Defined.

Lemma deserialize_elements_short_buffer_witness :
  deserialize_elements bn128_limbs bn128_r [1; 2] 3 = Ok [0; 0; 0].
Proof.
  apply (deserialize_elements_short_buffer bn128_limbs bn128_r [1; 2] 3). cbn. lia.
Defined.

Lemma convert_variable_id_dense_witness :
  convert_variable_id circuit_dense 7 = 7.
Proof.
  apply (convert_variable_id_dense circuit_dense 7); [reflexivity | reflexivity | lia].
Defined.
